(** * Matrix functions of [cupyx/scipy/linalg/_matfuncs.py]

    A shallow embedding of [khatri_rao], [expm], [_expm_inner], [cosm] and
    [sinm], and the properties of them that the specification states.

    An array is its dtype, its shape and its entries in row-major order, as
    in the array library.  Two dtypes are modelled, [float64] and
    [complex128]; integer and narrower floating-point arrays are left out.
    Entries are exact: a [float64] entry is a real number and a
    [complex128] entry a pair of reals, so rounding, infinities and NaN are
    outside the model.  Two places where the floating-point format decides
    which way the code goes are kept: the constant [th13] is the double
    that the literal [5.37] denotes, and [math.exp] and [cmath.exp] raise
    [OverflowError] when their result exceeds the largest double.

    A function of the module is a computation in [M]: it ends with a value or
    with a Python exception, and it carries the log of the calls it made into
    the linear algebra routines of the array library ([diag], [sum], [eye],
    [norm], [@], [solve], [exp]).  Those routines, the elementwise operators
    and the shape helpers belong to the array library and are not part of
    the module's source; each is modelled from the specification and marked
    so. *)

From Stdlib Require Import String.
From Stdlib Require Import Reals Lra Lia ZArith Bool Arith List.
From Stdlib Require Import ClassicalEpsilon.
Import ListNotations.

Set Implicit Arguments.

(** ** Scalars *)

Module Scalar.

Local Open Scope R_scope.

(** A complex number is its real and imaginary part. *)
Definition C : Type := (R * R)%type.

Definition RtoC (x : R) : C := (x, 0).
Definition C0 : C := RtoC 0.
Definition C1 : C := RtoC 1.
Definition Ci : C := (0, 1).

Definition Re (z : C) : R := fst z.
Definition Im (z : C) : R := snd z.

Definition Cadd (z w : C) : C := (Re z + Re w, Im z + Im w).
Definition Csub (z w : C) : C := (Re z - Re w, Im z - Im w).
Definition Copp (z : C) : C := (- Re z, - Im z).
Definition Cmul (z w : C) : C :=
  (Re z * Re w - Im z * Im w, Re z * Im w + Im z * Re w).
Definition Cdiv (z w : C) : C :=
  ((Re z * Re w + Im z * Im w) / (Re w * Re w + Im w * Im w),
   (Im z * Re w - Re z * Im w) / (Re w * Re w + Im w * Im w)).

(** [abs] of an entry. *)
Definition Cmod (z : C) : R := sqrt (Re z * Re z + Im z * Im z).

(** [cmath.exp]. *)
Definition Cexp (z : C) : C := (exp (Re z) * cos (Im z), exp (Re z) * sin (Im z)).

Definition Csum (l : list C) : C := fold_right Cadd C0 l.
Definition Rsum (l : list R) : R := fold_right Rplus 0 l.

(** [math.log2] and [math.ceil]. *)
Definition log2 (x : R) : R := ln x / ln 2.
Definition ceil (x : R) : Z := (1 - up (- x))%Z.

End Scalar.
Export Scalar.

(** ** Exceptions, results and the log of library calls *)

Inductive exn : Type :=
| ValueError (msg : string)
| LinAlgError (msg : string)
| IndexError (msg : string)
| OverflowError (msg : string).

Inductive result (A : Type) : Type :=
| Ok (x : A)
| Raise (e : exn).

Arguments Ok {A} x.
Arguments Raise {A} e.

(** The calls a function of this module makes into the linear algebra
    routines of the array library, in the order they are made. *)
Inductive call : Type :=
| call_diag | call_sum | call_eye | call_norm
| call_matmul | call_solve | call_exp.

(** A computation: the calls made so far and its outcome. *)
Definition M (A : Type) : Type := (list call * result A)%type.

Definition ret {A} (x : A) : M A := ([], Ok x).
Definition raise {A} (e : exn) : M A := ([], Raise e).

Definition bind {A B} (m : M A) (k : A -> M B) : M B :=
  match m with
  | (t, Ok x) => let (t', r) := k x in (t ++ t', r)
  | (t, Raise e) => (t, Raise e)
  end.

(** An outcome reached without any library call, and one reached by a
    single call. *)
Definition lift {A} (r : result A) : M A := ([], r).
Definition calling {A} (c : call) (r : result A) : M A := ([c], r).

Definition calls {A} (m : M A) : list call := fst m.
Definition outcome {A} (m : M A) : result A := snd m.

Declare Scope comp_scope.
Delimit Scope comp_scope with comp.
Notation "x <- m ;; k" := (bind m (fun x => k))
  (at level 61, m at next level, right associativity) : comp_scope.
Notation "' p <- m ;; k" := (bind m (fun x => match x with p => k end))
  (at level 61, p pattern, m at next level, right associativity) : comp_scope.

(** ** Arrays *)

(** The two dtypes of the model.  They are the dtypes the results of [expm]
    have: the [eye(n)] of line 95 is float64, so an input of a narrower or
    an integer dtype is promoted to one of the two before the Pade step.
    Inputs of those other dtypes are not modelled, and a statement below
    that names the dtype of a result speaks of float64 and complex128
    inputs. *)
Inductive scalar_field : Type := float64 | complex128.

Definition promote (d1 d2 : scalar_field) : scalar_field :=
  match d1, d2 with
  | float64, float64 => float64
  | _, _ => complex128
  end.

Definition is_complex (d : scalar_field) : bool :=
  match d with complex128 => true | float64 => false end.

Record ndarray : Type := mk_ndarray {
  dtype : scalar_field;
  shape : list nat;
  data : list C
}.

Definition prod (s : list nat) : nat := fold_right Nat.mul 1 s.

(** [a.size] and [a.ndim]. *)
Definition size (a : ndarray) : nat := prod (shape a).
Definition ndim (a : ndarray) : nat := length (shape a).

(** An array holds as many entries as its shape says. *)
Definition wf (a : ndarray) : Prop := length (data a) = size a.

(** The entries [g 0], ..., [g (n-1)]. *)
Definition tab (n : nat) (g : nat -> C) : list C := map g (seq 0 n).

(** The entry at flat position [p], and [a[i, j]] of a matrix. *)
Definition flat (a : ndarray) (p : nat) : C := nth p (data a) C0.
Definition ncols (a : ndarray) : nat := nth 1 (shape a) 0.
Definition get2 (a : ndarray) (i j : nat) : C := flat a (i * ncols a + j).

(** A matrix given by its entries. *)
Definition matrix (d : scalar_field) (r c : nat) (f : nat -> nat -> C) : ndarray :=
  mk_ndarray d [r; c] (tab (r * c) (fun p => f (p / c) (p mod c))).

(** A 0-d array, also the form in which a Python number meets an array. *)
Definition scalar (d : scalar_field) (z : C) : ndarray := mk_ndarray d [] [z].
Definition py_float (x : R) : ndarray := scalar float64 (RtoC x).
Definition py_complex (z : C) : ndarray := scalar complex128 z.

(** Modelled from the spec: [cupy.zeros(s, dtype=d)], not under src/; used
    for the "0x0 matrix of the same scalar field". *)
Definition zeros (s : list nat) (d : scalar_field) : ndarray :=
  mk_ndarray d s (tab (prod s) (fun _ => C0)).

(** Modelled from the spec: [cupy.iscomplexobj], not under src/; whether the
    "scalar field is complex". *)
Definition iscomplexobj (x : ndarray) : bool := is_complex (dtype x).

(** [a.shape[k]]. *)
Definition shape_at (a : ndarray) (k : nat) : M nat :=
  match nth_error (shape a) k with
  | Some d => ret d
  | None => raise (IndexError "tuple index out of range")
  end.

(** Modelled from the spec: [b[i]] of a one-dimensional array, a 0-d array;
    the indexing of the array library is not under src/.  It reads the
    "14-entry coefficient table b (b[0]..b[13])". *)
Definition getitem (b : ndarray) (i : nat) : M ndarray :=
  match nth_error (data b) i with
  | Some z => ret (scalar (dtype b) z)
  | None => raise (IndexError "index out of bounds")
  end.

(** Modelled from the spec: [cupy.asarray] of a list of floats, not under
    src/; the table becomes a one-dimensional real array. *)
Definition asarray (l : list R) : ndarray :=
  mk_ndarray float64 [length l] (map RtoC l).

(** Modelled from the spec: the attributes [x.real] and [x.imag] of the
    array library, not under src/: "extracting real/imaginary parts of the
    result", as real arrays. *)
Definition real (x : ndarray) : ndarray :=
  mk_ndarray float64 (shape x) (map (fun z => RtoC (Re z)) (data x)).
Definition imag (x : ndarray) : ndarray :=
  mk_ndarray float64 (shape x) (map (fun z => RtoC (Im z)) (data x)).

(** ** The array library *)

(** *** Broadcasting

    Shapes are aligned at their last axis; an axis of extent one, or a
    missing leading axis, is repeated along the other operand's axis. *)

Definition broadcast_dim (d1 d2 : nat) : option nat :=
  if d1 =? d2 then Some d1
  else if d1 =? 1 then Some d2
  else if d2 =? 1 then Some d1
  else None.

(** On shapes written last axis first. *)
Fixpoint broadcast_rev (s1 s2 : list nat) : option (list nat) :=
  match s1, s2 with
  | [], _ => Some s2
  | _, [] => Some s1
  | d1 :: t1, d2 :: t2 =>
      match broadcast_dim d1 d2, broadcast_rev t1 t2 with
      | Some d, Some t => Some (d :: t)
      | _, _ => None
      end
  end.

Definition broadcast_shapes (s1 s2 : list nat) : option (list nat) :=
  option_map (@rev nat) (broadcast_rev (rev s1) (rev s2)).

(** The index along each axis, last axis first, of flat position [p]. *)
Fixpoint unravel_rev (rs : list nat) (p : nat) : list nat :=
  match rs with
  | [] => []
  | d :: rs' => p mod d :: unravel_rev rs' (p / d)
  end.

(** The flat position, in an operand of shape [rs], that is read at the
    indices [idx] of the result. *)
Fixpoint ravel_rev (rs idx : list nat) : nat :=
  match rs, idx with
  | d :: rs', i :: idx' => (if d =? 1 then 0 else i) + d * ravel_rev rs' idx'
  | _, _ => 0
  end.

Definition source_index (sx s : list nat) (p : nat) : nat :=
  ravel_rev (rev sx) (unravel_rev (rev s) p).

Definition broadcast_error : exn :=
  ValueError "operands could not be broadcast together".

(** Modelled from the spec: the elementwise operators of the array library
    ([+], [-], [*], [/] on arrays, which are not under src/), "broadcast
    elementwise, matching standard broadcasting rules"; the result has the
    promoted scalar field of the operands. *)
Definition ufunc (f : C -> C -> C) (x y : ndarray) : M ndarray :=
  match broadcast_shapes (shape x) (shape y) with
  | Some s =>
      ret (mk_ndarray (promote (dtype x) (dtype y)) s
             (tab (prod s) (fun p =>
                f (flat x (source_index (shape x) s p))
                  (flat y (source_index (shape y) s p)))))
  | None => raise broadcast_error
  end.

Definition binary (f : C -> C -> C) (mx my : M ndarray) : M ndarray :=
  (x <- mx ;; y <- my ;; ufunc f x y)%comp.

Definition add := binary Cadd.
Definition subtract := binary Csub.
Definition multiply := binary Cmul.
Definition true_divide := binary Cdiv.

(** Modelled from the spec: the unary minus of the array library, not under
    src/; "negation" entry by entry. *)
Definition negative (mx : M ndarray) : M ndarray :=
  (x <- mx ;; ret (mk_ndarray (dtype x) (shape x) (map Copp (data x))))%comp.

(** *** Linear algebra *)

(** The sum of [f t * g t] over [t < k]. *)
Definition dot (k : nat) (f g : nat -> C) : C :=
  Csum (map (fun t => Cmul (f t) (g t)) (seq 0 k)).

(** The product of an r-by-k and a k-by-c matrix. *)
Definition mm (x y : ndarray) : ndarray :=
  matrix (promote (dtype x) (dtype y)) (nth 0 (shape x) 0) (ncols y)
    (fun i j => dot (ncols x) (fun t => get2 x i t) (fun t => get2 y t j)).

Definition matmul_error : exn := ValueError "matmul: shapes are not aligned".

(** Modelled from the spec: the matrix multiply [x @ y] of the array
    library, which is not under src/.  Only products of two matrices occur
    in this module; operands of another rank are refused here. *)
Definition matmul_ (x y : ndarray) : M ndarray :=
  calling call_matmul
    match shape x, shape y with
    | [_; k], [k'; _] =>
        if k =? k' then Ok (mm x y)
        else Raise matmul_error
    | _, _ => Raise (ValueError "matmul: operands are not matrices")
    end.

Definition matmul (mx my : M ndarray) : M ndarray :=
  (x <- mx ;; y <- my ;; matmul_ x y)%comp.

(** Modelled from the spec: [cupy.eye(n)], "identity matrix construction",
    which is not under src/. *)
Definition eye (n : nat) : M ndarray :=
  calling call_eye
    (Ok (matrix float64 n n (fun i j => if i =? j then C1 else C0))).

(** Modelled from the spec: [cupy.diag], which is not under src/; the
    "diagonal entries" of a matrix, or the diagonal matrix of a vector. *)
Definition diag (a : ndarray) : M ndarray :=
  calling call_diag
    match shape a with
    | [r; c] =>
        Ok (mk_ndarray (dtype a) [Nat.min r c]
              (tab (Nat.min r c) (fun i => get2 a i i)))
    | [n] =>
        Ok (matrix (dtype a) n n (fun i j => if i =? j then flat a i else C0))
    | _ => Raise (ValueError "Input must be 1- or 2-d.")
    end.

(** Modelled from the spec: [x.sum()], the "sum of" all entries, as a 0-d
    array; not under src/. *)
Definition sum (mx : M ndarray) : M ndarray :=
  (x <- mx ;; calling call_sum (Ok (scalar (dtype x) (Csum (data x)))))%comp.

(** Modelled from the spec: [cupy.linalg.norm(A, ord=1).item()], not under
    src/: for a matrix "the maximum over columns of the sum of absolute
    values of that column's entries", for a vector the sum of the absolute
    values. *)
Definition norm1 (A : ndarray) : M R :=
  calling call_norm
    match shape A with
    | [r; c] =>
        match map (fun j => Rsum (map (fun i => Cmod (get2 A i j)) (seq 0 r)))
                  (seq 0 c) with
        | [] => Raise (ValueError "zero-size array to reduction operation maximum")
        | x :: l => Ok (fold_left Rmax l x)
        end
    | [_] => Ok (Rsum (map Cmod (data A)))
    | _ => Raise (ValueError "Improper number of dimensions to norm.")
    end.

Definition singular_error : exn := LinAlgError "Singular matrix".

(** [X] solves the system [P X = Q]. *)
Definition is_solution (P Q X : ndarray) : Prop :=
  wf X /\ shape X = shape Q /\ dtype X = promote (dtype P) (dtype Q) /\
  data (mm P X) = data Q.

(** Modelled from the spec: [cupy.linalg.solve], not under src/; a "general
    dense linear system solve" returning "the unique matrix satisfying"
    [P X = Q], and failing with a Singular error when there is none.  Only
    systems with a matrix on the right occur in this module. *)
Definition solve_ (P Q : ndarray) : M ndarray :=
  calling call_solve
    match shape P, shape Q with
    | [n; n'], [m; _] =>
        if negb (n =? n') then
          Raise (LinAlgError "Last 2 dimensions of the array must be square")
        else if negb (n =? m) then
          Raise (ValueError "solve: shapes are not aligned")
        else
          match excluded_middle_informative (exists! X, is_solution P Q X) with
          | left H =>
              Ok (proj1_sig (constructive_indefinite_description _ H))
          | right _ => Raise singular_error
          end
    | _, _ => Raise (LinAlgError "solve: operands are not matrices")
    end.

Definition solve (mp mq : M ndarray) : M ndarray :=
  (p <- mp ;; q <- mq ;; solve_ p q)%comp.

(** The largest finite double, [sys.float_info.max] = 2^1024 - 2^971, and
    the reals within its range. *)
Definition dbl_max : R := IZR (2 ^ 1024 - 2 ^ 971).
Definition in_range (x : R) : Prop := (Rabs x <= dbl_max)%R.
Definition in_range_dec (x : R) : {in_range x} + {~ in_range x} :=
  Rle_dec (Rabs x) dbl_max.

Definition overflow_error : exn := OverflowError "math range error".

(** [math.exp(mu)] and [cmath.exp(mu)] of a 0-d array.  Both raise
    [OverflowError] when the result does not fit a double: for [math.exp]
    the exponential itself, for [cmath.exp] its real or its imaginary
    part. *)
Definition math_exp (mu : ndarray) : M ndarray :=
  calling call_exp
    (let r := exp (Re (flat mu 0)) in
     if in_range_dec r then Ok (py_float r)
     else Raise overflow_error).
Definition cmath_exp (mu : ndarray) : M ndarray :=
  calling call_exp
    (let w := Cexp (flat mu 0) in
     if in_range_dec (Re w) then
       if in_range_dec (Im w) then Ok (py_complex w)
       else Raise overflow_error
     else Raise overflow_error).

(** A Python integer meeting an array, and [2**s]. *)
Definition py_int (n : Z) : ndarray := py_float (IZR n).
Definition pow2 (s : Z) : ndarray := py_float (powerRZ 2 s).

(** *** Shape handling for [khatri_rao] *)

Definition not_2d_error : exn := LinAlgError "Array must be two-dimensional".

(** Modelled from the spec: [_util._assert_2d], not under src/; a
    DimensionError is "raised when KhatriRao's inputs are not
    two-dimensional". *)
Definition _assert_2d (a : ndarray) : M unit :=
  if ndim a =? 2 then ret tt
  else raise not_2d_error.

(** Modelled from the spec: the indexing [a[..., :, newaxis, :]] ([k = 1])
    and [b[..., newaxis, :, :]] ([k = 2]) of the array library: "a new axis
    before its last dimension" and "before its last-but-one dimension"; the
    entries are unchanged. *)
Definition newaxis_before (k : nat) (a : ndarray) : M ndarray :=
  if ndim a <? 2 then raise (IndexError "too many indices for array")
  else ret (mk_ndarray (dtype a)
              (firstn (ndim a - k) (shape a) ++ 1 :: skipn (ndim a - k) (shape a))
              (data a)).

Definition reshape_error : exn :=
  ValueError "cannot reshape array of size 0 into the requested shape".

(** Modelled from the spec: [c.reshape((-1,) + c.shape[2:])] of the array
    library: "collapse the two leading axes into one, preserving trailing
    dimensions"; the entries keep their row-major order.  The leading
    extent is written [-1] in the source: the library infers it as the
    number of entries divided by the product of the trailing extents, and
    refuses the call when that product is zero, since no extent can then be
    inferred. *)
Definition reshape_leading (c : ndarray) : M ndarray :=
  let trailing := skipn 2 (shape c) in
  if prod trailing =? 0 then raise reshape_error
  else ret (mk_ndarray (dtype c) (size c / prod trailing :: trailing) (data c)).

(** ** The module *)

Definition as_computation (x : ndarray) : M ndarray := ret x.
Coercion as_computation : ndarray >-> M.

Declare Scope nd_scope.
Delimit Scope nd_scope with nd.
Notation "x + y" := (add x y) : nd_scope.
Notation "x - y" := (subtract x y) : nd_scope.
Notation "x * y" := (multiply x y) : nd_scope.
Notation "x / y" := (true_divide x y) : nd_scope.
Notation "- x" := (negative x) : nd_scope.
Notation "x @ y" := (matmul x y) (at level 40, left associativity) : nd_scope.
Notation "b .[ i ]" := (getitem b i) (at level 1, left associativity) : nd_scope.

Local Open Scope comp_scope.
Local Open Scope nd_scope.

(** The error raised at lines 35-36. *)
Definition columns_error : exn :=
  ValueError "The number of columns for both arrays should be equal.".

Definition khatri_rao (a b : ndarray) : M ndarray :=
  _ <- _assert_2d a ;;
  _ <- _assert_2d b ;;
  ka <- shape_at a 1 ;;
  kb <- shape_at b 1 ;;
  if negb (ka =? kb) then
    raise columns_error
  else
    c <- newaxis_before 1 a * newaxis_before 2 b ;;
    reshape_leading c.

Definition b : list R :=
  [64764752532480000;
   32382376266240000;
   7771770303897600;
   1187353796428800;
   129060195264000;
   10559470521600;
   670442572800;
   33522128640;
   1323241920;
   40840800;
   960960;
   16380;
   182;
   1]%R.

(** [th13 = 5.37]: the literal denotes the double nearest to 5.37, which is
    6046082499744891 / 2^50. *)
Definition th13 : R := (6046082499744891 / 1125899906842624)%R.

Definition _expm_inner (E A A2 A4 A6 b : ndarray)
  : M (ndarray * ndarray * ndarray * ndarray) :=
  u1 <- b.[13]*A6 + b.[11]*A4 + b.[9]*A2 ;;
  u2 <- b.[7]*A6 + b.[5]*A4 + b.[3]*A2 + b.[1]*E ;;

  v1 <- b.[12]*A6 + b.[10]*A4 + b.[8]*A ;;
  v2 <- b.[6]*A6 + b.[4]*A4 + b.[2]*A2 + b.[0]*E ;;
  ret (u1, u2, v1, v2).

(** [for _ in range(k): x = x @ x]. *)
Fixpoint squaring (k : nat) (x : ndarray) : M ndarray :=
  match k with
  | O => ret x
  | S k' => x' <- x @ x ;; squaring k' x'
  end.

Definition expm (a : ndarray) : M ndarray :=
  if size a =? 0 then
    ret (zeros [0; 0]%nat (dtype a))
  else

  n <- shape_at a 0 ;;

  (* try reducing the norm *)
  mu <- sum (diag a) / py_int (Z.of_nat n) ;;
  A <- a - eye n * mu ;;

  (* scale factor *)
  nrmA <- norm1 A ;;

  let scale := Rlt_dec th13 nrmA in
  let s := if scale then (ceil (log2 (nrmA / th13)) + 1)%Z else 1%Z in

  A <- A / pow2 s ;;

  (* compute [13/13] Pade approximant *)
  A2 <- A @ A ;;
  A4 <- A2 @ A2 ;;
  A6 <- A2 @ A4 ;;

  n' <- shape_at A 0 ;;
  E <- eye n' ;;

  '(u1, u2, v1, v2) <- _expm_inner E A A2 A4 A6 (asarray b) ;;
  u <- A @ (A6 @ u1 + u2) ;;
  v <- A6 @ v1 + v2 ;;

  r13 <- solve (- u + v) (u + v) ;;

  (* squaring *)
  x <- squaring (Z.to_nat s) r13 ;;

  (* undo preprocessing *)
  e <- (if iscomplexobj mu then cmath_exp mu else math_exp mu) ;;
  x * e.

(** In [cosm] and [sinm], [py_complex Ci] is [1j], [py_complex (Copp Ci)] is
    [-1j], and [bind m expm] is [expm(m)]. *)
Definition cosm (a : ndarray) : M ndarray :=
  if iscomplexobj a then
    py_float 0.5 * (bind (py_complex Ci * a) expm
                    + bind (py_complex (Copp Ci) * a) expm)
  else
    x <- bind (py_complex Ci * a) expm ;; ret (real x).

Definition sinm (a : ndarray) : M ndarray :=
  if iscomplexobj a then
    py_float (-0.5) * (bind (py_complex Ci * a) expm
                       - bind (py_complex (Copp Ci) * a) expm)
  else
    x <- bind (py_complex Ci * a) expm ;; ret (imag x).

Close Scope nd_scope.
Close Scope comp_scope.

(** ** Entrywise views of the library operations *)

(** Same-shape operands, a 0-d left operand, a 0-d right operand. *)
Definition ew (f : C -> C -> C) (x y : ndarray) : ndarray :=
  mk_ndarray (promote (dtype x) (dtype y)) (shape x)
    (tab (size x) (fun p => f (flat x p) (flat y p))).
Definition ewl (f : C -> C -> C) (z x : ndarray) : ndarray :=
  mk_ndarray (promote (dtype z) (dtype x)) (shape x)
    (tab (size x) (fun p => f (flat z 0) (flat x p))).
Definition ewr (f : C -> C -> C) (x z : ndarray) : ndarray :=
  mk_ndarray (promote (dtype x) (dtype z)) (shape x)
    (tab (size x) (fun p => f (flat x p) (flat z 0))).
Definition neg (x : ndarray) : ndarray :=
  mk_ndarray (dtype x) (shape x) (map Copp (data x)).

(** The n-by-n matrix [z I]. *)
Definition smat (d : scalar_field) (n : nat) (z : C) : ndarray :=
  matrix d n n (fun i j => if i =? j then z else C0).

(** ** Entries of matrices *)


(** The matrices [[1,0],[0,1]] and [[1,2],[3,4]]. *)
Definition ex_a : ndarray := mk_ndarray float64 [2; 2] (map RtoC [1; 0; 0; 1]%R).
Definition ex_b : ndarray := mk_ndarray float64 [2; 2] (map RtoC [1; 2; 3; 4]%R).


(** ** The steps of [expm] in matrix notation

    The values the spec names in its steps 1 to 6, written with the
    entrywise views above; the theorems compare [expm] with them. *)

(** The calls [t], then the computation [m]. *)
Definition after {A} (t : list call) (m : M A) : M A := (t ++ fst m, snd m).

(** [E]: the n-by-n identity. *)
Definition identity (n : nat) : ndarray := smat float64 n C1.

(** [b[i]] of the coefficient table, as a 0-d array. *)
Definition coef (i : nat) : ndarray := py_float (nth i b 0%R).

(** Step 1: [mu], the mean of the diagonal, and [a - mu I]. *)
Definition trace_mean (a : ndarray) (n : nat) : ndarray :=
  ew Cdiv (scalar (dtype a) (Csum (tab n (fun i => get2 a i i))))
          (py_int (Z.of_nat n)).
Definition shifted (a : ndarray) (n : nat) : ndarray :=
  ew Csub a (ewr Cmul (identity n) (trace_mean a n)).

(** Step 2: the induced 1-norm, the scale exponent and the scaled matrix. *)
Definition one_norm (A : ndarray) : R :=
  match map (fun j => Rsum (map (fun i => Cmod (get2 A i j))
                                (seq 0 (nth 0 (shape A) 0))))
            (seq 0 (ncols A)) with
  | [] => 0%R
  | x :: l => fold_left Rmax l x
  end.
Definition scale_exponent (nrmA : R) : Z :=
  if Rlt_dec th13 nrmA then (ceil (log2 (nrmA / th13)) + 1)%Z else 1%Z.
Definition scaled_from (A0 : ndarray) : ndarray :=
  ewr Cdiv A0 (pow2 (scale_exponent (one_norm A0))).
Definition scaled (a : ndarray) (n : nat) : ndarray := scaled_from (shifted a n).

(** Step 3: the four polynomial parts, then [u] and [v]. *)
Definition pade_u1 (A2 A4 A6 : ndarray) : ndarray :=
  ew Cadd (ew Cadd (ewl Cmul (coef 13) A6) (ewl Cmul (coef 11) A4))
          (ewl Cmul (coef 9) A2).
Definition pade_u2 (E A2 A4 A6 : ndarray) : ndarray :=
  ew Cadd (ew Cadd (ew Cadd (ewl Cmul (coef 7) A6) (ewl Cmul (coef 5) A4))
                   (ewl Cmul (coef 3) A2))
          (ewl Cmul (coef 1) E).
Definition pade_v1 (A A4 A6 : ndarray) : ndarray :=
  ew Cadd (ew Cadd (ewl Cmul (coef 12) A6) (ewl Cmul (coef 10) A4))
          (ewl Cmul (coef 8) A).
Definition pade_v2 (E A2 A4 A6 : ndarray) : ndarray :=
  ew Cadd (ew Cadd (ew Cadd (ewl Cmul (coef 6) A6) (ewl Cmul (coef 4) A4))
                   (ewl Cmul (coef 2) A2))
          (ewl Cmul (coef 0) E).
Definition pade_u (E A : ndarray) : ndarray :=
  let A2 := mm A A in let A4 := mm A2 A2 in let A6 := mm A2 A4 in
  mm A (ew Cadd (mm A6 (pade_u1 A2 A4 A6)) (pade_u2 E A2 A4 A6)).
Definition pade_v (E A : ndarray) : ndarray :=
  let A2 := mm A A in let A4 := mm A2 A2 in let A6 := mm A2 A4 in
  ew Cadd (mm A6 (pade_v1 A A4 A6)) (pade_v2 E A2 A4 A6).

(** Step 6: the call of line 124, [cmath.exp(mu)] or [math.exp(mu)], the
    factor it returns, and whether that factor fits a double. *)
Definition exp_call (mu : ndarray) : M ndarray :=
  if iscomplexobj mu then cmath_exp mu else math_exp mu.
Definition exp_factor (mu : ndarray) : ndarray :=
  if iscomplexobj mu then py_complex (Cexp (flat mu 0))
  else py_float (exp (Re (flat mu 0))).
Definition exp_fits (mu : ndarray) : Prop :=
  if iscomplexobj mu then
    in_range (Re (Cexp (flat mu 0))) /\ in_range (Im (Cexp (flat mu 0)))
  else in_range (exp (Re (flat mu 0))).

(** Steps 5 and 6 on the matrix [r13] the solve returned. *)
Definition squared_back_from (mu A0 r13 : ndarray) : M ndarray :=
  bind (squaring (Z.to_nat (scale_exponent (one_norm A0))) r13)
    (fun x =>
  bind (if iscomplexobj mu then cmath_exp mu else math_exp mu)
    (fun e => multiply x e)).
Definition squared_back (a : ndarray) (n : nat) : ndarray -> M ndarray :=
  squared_back_from (trace_mean a n) (shifted a n).

(** The library calls of [expm] up to the solve. *)
Definition expm_calls : list call :=
  [call_diag; call_sum; call_eye; call_norm;
   call_matmul; call_matmul; call_matmul; call_eye;
   call_matmul; call_matmul; call_matmul].

(** The calls made before a non-square input is refused, and the error. *)
Definition nonsquare_calls (r : nat) : list call :=
  if r =? 1 then [call_diag; call_sum; call_eye; call_norm; call_matmul]
  else [call_diag; call_sum; call_eye].
Definition nonsquare_error (r : nat) : exn :=
  if r =? 1 then matmul_error else broadcast_error.

(** ** Inputs used in the further properties *)

(** The 1-by-k row of ones, [ones((1, k))]. *)
Definition ones_row (k : nat) : ndarray :=
  mk_ndarray float64 [1; k] (tab k (fun _ => C1)).

(** The matrix [a + z * eye(n)] for an n-by-n matrix [a] and a Python
    number [z], a float or a complex: complex as soon as [a] or [z] is. *)
Definition plus_scalar (a : ndarray) (n : nat) (z : ndarray) : ndarray :=
  ew Cadd a (ewl Cmul z (identity n)).

(** * Properties *)

(** ** Lists of entries *)

Lemma length_tab n g : length (tab n g) = n.
Proof. unfold tab. now rewrite length_map, length_seq. Qed.

Lemma nth_tab n g p d : p < n -> nth p (tab n g) d = g p.
Proof.
  intros Hp. unfold tab.
  rewrite (nth_indep _ d (g 0)) by now rewrite length_map, length_seq.
  now rewrite (map_nth g (seq 0 n) 0 p), seq_nth.
Qed.

Lemma tab_ext n g h : (forall p, p < n -> g p = h p) -> tab n g = tab n h.
Proof.
  intros H. unfold tab. apply map_ext_in.
  intros p Hp. apply in_seq in Hp. apply H. lia.
Qed.

Lemma tab_data l : tab (length l) (fun p => nth p l C0) = l.
Proof.
  apply (nth_ext _ _ C0 C0).
  - apply length_tab.
  - intros p Hp. rewrite length_tab in Hp. now apply nth_tab.
Qed.

Lemma prod_app s t : prod (s ++ t) = prod s * prod t.
Proof.
  induction s as [|d s IH]; simpl; [lia|]. rewrite IH. lia.
Qed.

Lemma prod_rev s : prod (rev s) = prod s.
Proof.
  induction s as [|d s IH]; simpl; [reflexivity|].
  rewrite prod_app, IH. simpl. lia.
Qed.

(** ** Broadcasting lemmas *)

Lemma broadcast_dim_same d : broadcast_dim d d = Some d.
Proof. unfold broadcast_dim. now rewrite Nat.eqb_refl. Qed.

Lemma broadcast_rev_same s : broadcast_rev s s = Some s.
Proof.
  induction s as [|d s IH]; simpl; [reflexivity|].
  now rewrite broadcast_dim_same, IH.
Qed.

Lemma broadcast_shapes_same s : broadcast_shapes s s = Some s.
Proof.
  unfold broadcast_shapes. rewrite broadcast_rev_same. simpl.
  now rewrite rev_involutive.
Qed.

Lemma broadcast_shapes_nil_l s : broadcast_shapes [] s = Some s.
Proof. unfold broadcast_shapes. simpl. now rewrite rev_involutive. Qed.

Lemma broadcast_shapes_nil_r s : broadcast_shapes s [] = Some s.
Proof.
  unfold broadcast_shapes. cbn [rev].
  assert (H : broadcast_rev (rev s) [] = Some (rev s)) by now destruct (rev s).
  rewrite H. cbn [option_map]. now rewrite rev_involutive.
Qed.

Lemma ravel_unravel rs : forall p, p < prod rs -> ravel_rev rs (unravel_rev rs p) = p.
Proof.
  induction rs as [|d rs IH]; simpl; intros p Hp; [lia|].
  assert (Hd : d <> 0) by (intros ->; simpl in Hp; lia).
  rewrite IH by (apply Nat.Div0.div_lt_upper_bound; lia).
  destruct (Nat.eqb_spec d 1) as [->|Hd1].
  - rewrite Nat.div_1_r. lia.
  - pose proof (Nat.div_mod_eq p d). lia.
Qed.

Lemma source_index_same s p : p < prod s -> source_index s s p = p.
Proof.
  intros Hp. unfold source_index. apply ravel_unravel. now rewrite prod_rev.
Qed.

(** ** The monad *)

Lemma bind_ok {A B} t (x : A) (k : A -> M B) :
  bind (t, Ok x) k = (t ++ fst (k x), snd (k x)).
Proof. simpl. now destruct (k x). Qed.

Lemma bind_raise {A B} t e (k : A -> M B) : bind (t, Raise e) k = (t, Raise e).
Proof. reflexivity. Qed.

Lemma bind_ret {A B} (x : A) (k : A -> M B) : bind (ret x) k = k x.
Proof. unfold ret. rewrite bind_ok. now destruct (k x). Qed.

Lemma bind_coerce {B} (x : ndarray) (k : ndarray -> M B) :
  bind (as_computation x) k = k x.
Proof. apply bind_ret. Qed.

(** ** Elementwise operations on aligned operands *)

Lemma ufunc_same f x y : shape x = shape y -> ufunc f x y = ret (ew f x y).
Proof.
  intros H. unfold ufunc, ew, size. rewrite <- H, broadcast_shapes_same.
  erewrite tab_ext; [reflexivity|]. intros p Hp.
  now rewrite source_index_same.
Qed.

Lemma ufunc_scalar_l f z x : shape z = [] -> ufunc f z x = ret (ewl f z x).
Proof.
  intros H. unfold ufunc, ewl, size. rewrite H, broadcast_shapes_nil_l.
  erewrite tab_ext; [reflexivity|]. intros p Hp.
  now rewrite source_index_same.
Qed.

Lemma ufunc_scalar_r f x z : shape z = [] -> ufunc f x z = ret (ewr f x z).
Proof.
  intros H. unfold ufunc, ewr, size. rewrite H, broadcast_shapes_nil_r.
  erewrite tab_ext; [reflexivity|]. intros p Hp.
  now rewrite source_index_same.
Qed.

(** ** [expm] on an input without entries *)

Lemma expm_size_0 a : size a = 0 -> expm a = ret (mk_ndarray (dtype a) [0; 0] []).
Proof.
  intros H. unfold expm. rewrite H. reflexivity.
Qed.

(** C7: a 0-by-0 input comes back as a 0-by-0 matrix of the same scalar
    field, with no exception and without a single call into the linear
    algebra routines. *)
Theorem expm_0x0 (a : ndarray) :
  shape a = [0; 0] ->
  calls (expm a) = [] /\
  outcome (expm a) = Ok (mk_ndarray (dtype a) [0; 0] []).
Proof.
  intros H. rewrite expm_size_0; [split; reflexivity|].
  unfold size. now rewrite H.
Qed.

Lemma expm_0x0_witness :
  calls (expm (zeros [0; 0] complex128)) = [] /\
  outcome (expm (zeros [0; 0] complex128)) = Ok (mk_ndarray complex128 [0; 0] []).
Proof. apply (expm_0x0 (zeros [0; 0] complex128)). reflexivity. Defined.

(** C10: every input matrix without entries, square or not (0-by-k, n-by-0),
    gives the 0-by-0 matrix of the input's dtype and no error. *)
Theorem expm_empty_any_shape (a : ndarray) (r c : nat) :
  shape a = [r; c] -> r = 0 \/ c = 0 ->
  expm a = ([], Ok (mk_ndarray (dtype a) [0; 0] [])).
Proof.
  intros H Hz. apply expm_size_0. unfold size. rewrite H. simpl.
  destruct Hz; subst; lia.
Qed.

Lemma expm_empty_any_shape_witness :
  expm (zeros [0; 3] float64) = ([], Ok (mk_ndarray float64 [0; 0] [])).
Proof.
  apply (@expm_empty_any_shape (zeros [0; 3] float64) 0 3); [reflexivity|].
  left. reflexivity.
Defined.

(** ** [khatri_rao] *)

(** C8: two-dimensional inputs with different column counts are refused
    with the column-count error; the outcome is the error alone, no array. *)
Theorem khatri_rao_columns_differ (a b : ndarray) (n1 k1 n2 k2 : nat) :
  shape a = [n1; k1] -> shape b = [n2; k2] -> k1 <> k2 ->
  khatri_rao a b = ([], Raise columns_error).
Proof.
  intros Ha Hb Hk. unfold khatri_rao, _assert_2d, ndim, shape_at.
  rewrite Ha, Hb. simpl.
  destruct (Nat.eqb_spec k1 k2) as [E|E]; [contradiction|reflexivity].
Qed.

Lemma khatri_rao_columns_differ_witness :
  khatri_rao (zeros [3; 2] float64) (zeros [2; 3] float64)
  = ([], Raise columns_error).
Proof.
  apply (@khatri_rao_columns_differ _ _ 3 2 2 3); [reflexivity|reflexivity|lia].
Defined.

(** C9, as stated, fails: a rank-3 input is refused. *)
Lemma khatri_rao_rank3_refused :
  outcome (khatri_rao (zeros [2; 2; 3] float64) (zeros [2; 2; 3] float64))
  = Raise not_2d_error.
Proof. reflexivity. Qed.

(** C9, amended: an input that is not two-dimensional is refused with the
    dimension error, before the column check and before any product. *)
Theorem khatri_rao_requires_2d (a b : ndarray) :
  ndim a <> 2 \/ ndim b <> 2 ->
  khatri_rao a b = ([], Raise not_2d_error).
Proof.
  intros H. unfold khatri_rao, _assert_2d.
  destruct (Nat.eqb_spec (ndim a) 2) as [Ea|Ea]; [|reflexivity].
  destruct (Nat.eqb_spec (ndim b) 2) as [Eb|Eb]; [|reflexivity].
  destruct H; contradiction.
Qed.

Lemma khatri_rao_requires_2d_witness :
  khatri_rao (zeros [4; 2; 3] float64) (zeros [2; 3] float64)
  = ([], Raise not_2d_error).
Proof.
  apply (khatri_rao_requires_2d (zeros [4; 2; 3] float64) (zeros [2; 3] float64)).
  left. unfold ndim. simpl. lia.
Defined.

Lemma broadcast_dim_1_l d : broadcast_dim 1 d = Some d.
Proof. unfold broadcast_dim. now destruct (Nat.eqb_spec 1 d) as [<-|]. Qed.

Lemma broadcast_dim_1_r d : broadcast_dim d 1 = Some d.
Proof.
  unfold broadcast_dim. destruct (Nat.eqb_spec d 1) as [->|]; [reflexivity|].
  reflexivity.
Qed.

Lemma broadcast_outer n1 n2 k :
  broadcast_shapes [n1; 1; k] [1; n2; k] = Some [n1; n2; k].
Proof.
  unfold broadcast_shapes. cbn [rev app broadcast_rev].
  now rewrite broadcast_dim_same, broadcast_dim_1_l, broadcast_dim_1_r.
Qed.

Lemma split_index i j l n2 k :
  j < n2 -> l < k ->
  let p := (i * n2 + j) * k + l in
  p mod k = l /\ p / k = i * n2 + j /\ (p / k) mod n2 = j /\ p / k / n2 = i.
Proof.
  intros Hj Hl p. subst p.
  assert (H1 : ((i * n2 + j) * k + l) / k = i * n2 + j).
  { rewrite Nat.div_add_l by lia. rewrite (Nat.div_small l k) by lia. lia. }
  rewrite H1. repeat split.
  - rewrite Nat.add_comm, Nat.Div0.mod_add. now apply Nat.mod_small.
  - rewrite Nat.add_comm, Nat.Div0.mod_add. now apply Nat.mod_small.
  - rewrite Nat.div_add_l by lia. rewrite (Nat.div_small j n2) by lia. lia.
Qed.

Lemma source_index_outer_l n1 n2 k p :
  p < n1 * n2 * k ->
  source_index [n1; 1; k] [n1; n2; k] p = p / k / n2 * k + p mod k.
Proof.
  intros Hp. unfold source_index. cbn [rev app unravel_rev ravel_rev Nat.eqb].
  assert (Hi : p / k / n2 < n1).
  { apply Nat.Div0.div_lt_upper_bound. apply Nat.Div0.div_lt_upper_bound. lia. }
  rewrite (Nat.mod_small (p / k / n2) n1) by exact Hi.
  destruct (Nat.eqb_spec k 1) as [->|Hk]; destruct (Nat.eqb_spec n1 1) as [->|Hn];
    rewrite ?Nat.mod_1_r; try lia.
Qed.

Lemma source_index_outer_r n1 n2 k p :
  p < n1 * n2 * k ->
  source_index [1; n2; k] [n1; n2; k] p = (p / k) mod n2 * k + p mod k.
Proof.
  intros Hp. unfold source_index. cbn [rev app unravel_rev ravel_rev Nat.eqb].
  destruct (Nat.eqb_spec k 1) as [->|Hk]; destruct (Nat.eqb_spec n2 1) as [->|Hn];
    rewrite ?Nat.mod_1_r; try lia.
Qed.

(** Line 38 on two matrices with k columns each: the three-dimensional
    product that line 39 reshapes. *)
Lemma khatri_rao_product a b n1 n2 k :
  shape a = [n1; k] -> shape b = [n2; k] ->
  khatri_rao a b =
  reshape_leading
    (mk_ndarray (promote (dtype a) (dtype b)) [n1; n2; k]
       (tab (n1 * n2 * k) (fun p =>
          Cmul (flat a (p / k / n2 * k + p mod k))
               (flat b ((p / k) mod n2 * k + p mod k))))).
Proof.
  intros Ha Hb. unfold khatri_rao, _assert_2d, ndim, shape_at.
  rewrite Ha, Hb. cbn [length Nat.eqb nth_error]. rewrite !bind_ret.
  rewrite Nat.eqb_refl. cbn [negb].
  unfold multiply, binary, newaxis_before, ndim. rewrite Ha, Hb.
  cbn [length Nat.ltb Nat.leb Nat.sub firstn skipn app]. rewrite !bind_ret.
  unfold ufunc. cbn [shape dtype]. rewrite broadcast_outer, bind_ret.
  f_equal. f_equal. cbn [prod fold_right].
  rewrite !Nat.mul_1_r, Nat.mul_assoc.
  apply tab_ext. intros p Hp.
  rewrite source_index_outer_l, source_index_outer_r by exact Hp.
  reflexivity.
Qed.

Lemma khatri_rao_run a b n1 n2 k :
  shape a = [n1; k] -> shape b = [n2; k] -> 1 <= k ->
  khatri_rao a b =
  ret (mk_ndarray (promote (dtype a) (dtype b)) [n1 * n2; k]
         (tab (n1 * n2 * k) (fun p =>
            Cmul (flat a (p / k / n2 * k + p mod k))
                 (flat b ((p / k) mod n2 * k + p mod k))))).
Proof.
  intros Ha Hb Hk. rewrite (khatri_rao_product _ _ Ha Hb).
  unfold reshape_leading, size. cbn [shape dtype data skipn prod fold_right].
  rewrite Nat.mul_1_r. destruct (Nat.eqb_spec k 0) as [E|_]; [lia|].
  rewrite Nat.mul_assoc, Nat.div_mul by lia. reflexivity.
Qed.





(** ** Running [expm] on a square input *)

Lemma after_after {A} t t' (m : M A) : after t (after t' m) = after (t ++ t') m.
Proof. unfold after. simpl. now rewrite app_assoc. Qed.

Lemma bind_after {A B} t (m : M A) (k : A -> M B) :
  bind (after t m) k = after t (bind m k).
Proof.
  destruct m as [t' [x|e]]; unfold after; simpl.
  - destruct (k x). simpl. now rewrite app_assoc.
  - reflexivity.
Qed.

Lemma bind_ok_after {A B} t (x : A) (k : A -> M B) :
  bind (t, Ok x) k = after t (k x).
Proof. apply bind_ok. Qed.

Lemma calling_ok {A} c (x : A) : calling c (Ok x) = after [c] (ret x).
Proof. reflexivity. Qed.

Lemma after_ret {A} t (x : A) : after t (ret x) = (t, Ok x).
Proof. unfold after, ret. cbn [fst snd]. now rewrite app_nil_r. Qed.

Lemma promote_float64_r d : promote d float64 = d.
Proof. now destruct d. Qed.
Lemma promote_float64_l d : promote float64 d = d.
Proof. now destruct d. Qed.
Lemma promote_same d : promote d d = d.
Proof. now destruct d. Qed.

Lemma norm1_matrix A r c :
  shape A = [r; c] -> 1 <= c -> norm1 A = after [call_norm] (ret (one_norm A)).
Proof.
  intros H Hc. unfold norm1, one_norm, ncols. rewrite H. cbn [nth].
  destruct c as [|c]; [lia|]. reflexivity.
Qed.

Lemma matmul_matrix x y r k c :
  shape x = [r; k] -> shape y = [k; c] ->
  matmul_ x y = after [call_matmul] (ret (mm x y)).
Proof.
  intros Hx Hy. unfold matmul_. rewrite Hx, Hy, Nat.eqb_refl. reflexivity.
Qed.

Ltac shp := cbn; congruence.

Lemma expm_inner_run E A A2 A4 A6 s :
  shape E = s -> shape A = s -> shape A2 = s -> shape A4 = s -> shape A6 = s ->
  _expm_inner E A A2 A4 A6 (asarray b)
  = ret (pade_u1 A2 A4 A6, pade_u2 E A2 A4 A6, pade_v1 A A4 A6, pade_v2 E A2 A4 A6).
Proof.
  intros HE HA H2 H4 H6.
  unfold _expm_inner, add, multiply, binary, getitem.
  cbn [asarray data dtype b map nth_error].
  repeat (rewrite ?bind_ret, ?bind_coerce;
          first [ rewrite ufunc_scalar_l by reflexivity
                | rewrite ufunc_same by shp ]).
  rewrite ?bind_ret.
  reflexivity.
Qed.

Lemma shape_mm x y : shape (mm x y) = [nth 0 (shape x) 0; ncols y].
Proof. reflexivity. Qed.

Lemma mm_square x y n : shape x = [n; n] -> shape y = [n; n] -> shape (mm x y) = [n; n].
Proof. intros Hx Hy. rewrite shape_mm. unfold ncols. now rewrite Hx, Hy. Qed.

Lemma pade13_shapes_from A n :
  shape A = [n; n] ->
  shape (pade_u (identity n) A) = [n; n] /\
  shape (pade_v (identity n) A) = [n; n].
Proof.
  intros HA. set (E := identity n).
  pose proof (mm_square _ _ HA HA) as H2.
  pose proof (mm_square _ _ H2 H2) as H4.
  pose proof (mm_square _ _ H2 H4) as H6.
  assert (Hu1 : shape (pade_u1 (mm A A) (mm (mm A A) (mm A A))
                         (mm (mm A A) (mm (mm A A) (mm A A)))) = [n; n]) by exact H6.
  assert (Hv1 : shape (pade_v1 A (mm (mm A A) (mm A A))
                         (mm (mm A A) (mm (mm A A) (mm A A)))) = [n; n]) by exact H6.
  split.
  - unfold pade_u. cbn zeta. apply mm_square; [exact HA|].
    cbn [ew shape]. now apply mm_square.
  - unfold pade_v. cbn zeta. cbn [ew shape]. now apply mm_square.
Qed.

Lemma expm_run_from a r n mu A0 :
  (size a =? 0) = false ->
  shape_at a 0 = ret r ->
  true_divide (sum (diag a)) (py_int (Z.of_nat r))
  = after [call_diag; call_sum] (ret mu) ->
  subtract a (multiply (eye r) mu) = after [call_eye] (ret A0) ->
  shape A0 = [n; n] -> 1 <= n ->
  let E := identity n in
  let A := scaled_from A0 in
  expm a =
  after expm_calls
    (bind (solve_ (ew Cadd (neg (pade_u E A)) (pade_v E A))
                  (ew Cadd (pade_u E A) (pade_v E A)))
          (squared_back_from mu A0)).
Proof.
  intros Hs Hr Hmu Hsub HA0 Hn E A. unfold expm.
  rewrite Hs, Hr, bind_ret, Hmu, bind_after, bind_ret, Hsub, bind_after, bind_ret.
  rewrite (norm1_matrix _ HA0) by lia.
  rewrite bind_after, bind_ret.
  change (if Rlt_dec th13 (one_norm A0)
          then (ceil (log2 (one_norm A0 / th13)) + 1)%Z else 1%Z)
    with (scale_exponent (one_norm A0)).
  unfold true_divide, binary.
  rewrite !bind_coerce. rewrite ufunc_scalar_r by reflexivity. rewrite bind_ret.
  change (ewr Cdiv A0 (pow2 (scale_exponent (one_norm A0)))) with A.
  assert (HA : shape A = [n; n]) by exact HA0.
  pose proof (mm_square _ _ HA HA) as H2.
  pose proof (mm_square _ _ H2 H2) as H4.
  pose proof (mm_square _ _ H2 H4) as H6.
  unfold matmul at 1. rewrite !bind_coerce, (matmul_matrix _ _ HA HA), bind_after, bind_ret.
  unfold matmul at 1. rewrite !bind_coerce, (matmul_matrix _ _ H2 H2), bind_after, bind_ret.
  unfold matmul at 1. rewrite !bind_coerce, (matmul_matrix _ _ H2 H4), bind_after, bind_ret.
  unfold shape_at. rewrite HA. cbn [nth_error]. rewrite bind_ret.
  unfold eye. rewrite calling_ok, bind_after, bind_ret.
  change (matrix float64 n n (fun i j => if i =? j then C1 else C0)) with E.
  assert (HE : shape E = [n; n]) by reflexivity.
  rewrite (expm_inner_run _ _ _ _ _ HE HA H2 H4 H6), bind_ret.
  set (A2 := mm A A) in *. set (A4 := mm A2 A2) in *. set (A6 := mm A2 A4) in *.
  assert (Hu1 : shape (pade_u1 A2 A4 A6) = [n; n]) by exact H6.
  assert (Hu2 : shape (pade_u2 E A2 A4 A6) = [n; n]) by exact H6.
  assert (Hv1 : shape (pade_v1 A A4 A6) = [n; n]) by exact H6.
  assert (Hv2 : shape (pade_v2 E A2 A4 A6) = [n; n]) by exact H6.
  pose proof (mm_square _ _ H6 Hu1) as H6u1.
  pose proof (mm_square _ _ H6 Hv1) as H6v1.
  unfold add, matmul, binary, solve, negative.
  rewrite !bind_coerce.
  rewrite (matmul_matrix _ _ H6 Hu1), !bind_after, !bind_ret, !bind_coerce.
  rewrite ufunc_same by congruence. rewrite bind_ret.
  assert (Hw : shape (ew Cadd (mm A6 (pade_u1 A2 A4 A6)) (pade_u2 E A2 A4 A6)) = [n; n])
    by exact H6u1.
  rewrite (matmul_matrix _ _ HA Hw), !bind_after, !bind_ret, !bind_coerce.
  rewrite (matmul_matrix _ _ H6 Hv1), !bind_after, !bind_ret, !bind_coerce.
  rewrite ufunc_same by congruence. rewrite !bind_ret, !bind_coerce.
  change (mm A (ew Cadd (mm A6 (pade_u1 A2 A4 A6)) (pade_u2 E A2 A4 A6)))
    with (pade_u E A).
  change (ew Cadd (mm A6 (pade_v1 A A4 A6)) (pade_v2 E A2 A4 A6)) with (pade_v E A).
  assert (HU : shape (pade_u E A) = [n; n]) by exact (mm_square _ _ HA Hw).
  assert (HV : shape (pade_v E A) = [n; n]) by exact H6v1.
  change (mk_ndarray (dtype (pade_u E A)) (shape (pade_u E A)) (map Copp (data (pade_u E A))))
    with (neg (pade_u E A)).
  rewrite ufunc_same by (cbn [neg shape]; congruence). rewrite !bind_ret.
  rewrite ufunc_same by congruence. rewrite !bind_ret.
  rewrite !after_after. reflexivity.
Qed.

Lemma diag_rect a r c :
  shape a = [r; c] ->
  diag a = after [call_diag]
             (ret (mk_ndarray (dtype a) [Nat.min r c]
                     (tab (Nat.min r c) (fun i => get2 a i i)))).
Proof. intros H. unfold diag. now rewrite H. Qed.

Lemma trace_mean_run a r c :
  shape a = [r; c] ->
  true_divide (sum (diag a)) (py_int (Z.of_nat r))
  = after [call_diag; call_sum]
      (ret (ew Cdiv (scalar (dtype a) (Csum (tab (Nat.min r c) (fun i => get2 a i i))))
                    (py_int (Z.of_nat r)))).
Proof.
  intros Ha. unfold true_divide, binary, sum. rewrite (diag_rect _ Ha).
  rewrite !bind_after, !bind_ret, !calling_ok, !bind_after, !bind_ret, bind_coerce.
  rewrite ufunc_same by reflexivity. now rewrite after_after.
Qed.

Lemma expm_run a n :
  shape a = [n; n] -> 1 <= n ->
  let E := identity n in
  let A := scaled a n in
  expm a =
  after expm_calls
    (bind (solve_ (ew Cadd (neg (pade_u E A)) (pade_v E A))
                  (ew Cadd (pade_u E A) (pade_v E A)))
          (squared_back a n)).
Proof.
  intros Ha Hn E A.
  apply (@expm_run_from a n n (trace_mean a n) (shifted a n)); trivial.
  - apply Nat.eqb_neq. unfold size. rewrite Ha. simpl. nia.
  - unfold shape_at. now rewrite Ha.
  - rewrite (trace_mean_run _ Ha), Nat.min_id. reflexivity.
  - unfold subtract, multiply, binary, eye.
    rewrite calling_ok, !bind_coerce, !bind_after, !bind_ret, bind_coerce.
    rewrite ufunc_scalar_r by reflexivity. rewrite bind_ret.
    rewrite ufunc_same by shp. reflexivity.
Qed.

(** Lines 94, 95 and 103 on a square input, as calls of the library. *)
Lemma mean_run a n :
  shape a = [n; n] ->
  true_divide (sum (diag a)) (py_int (Z.of_nat n))
  = ([call_diag; call_sum], Ok (trace_mean a n)).
Proof.
  intros Ha. rewrite (trace_mean_run _ Ha), Nat.min_id. apply after_ret.
Qed.

Lemma shift_run a n :
  shape a = [n; n] ->
  subtract a (multiply (eye n) (trace_mean a n)) = ([call_eye], Ok (shifted a n)).
Proof.
  intros Ha. unfold subtract, multiply, binary, eye.
  rewrite calling_ok, !bind_coerce, !bind_after, !bind_ret, bind_coerce.
  rewrite ufunc_scalar_r by reflexivity. rewrite bind_ret.
  rewrite ufunc_same by shp. apply after_ret.
Qed.

Lemma scale_run (A0 : ndarray) :
  true_divide A0 (pow2 (scale_exponent (one_norm A0))) = ([], Ok (scaled_from A0)).
Proof.
  unfold true_divide, binary. rewrite !bind_coerce.
  now rewrite ufunc_scalar_r by reflexivity.
Qed.

(** ** Entries of the elementwise views *)

Lemma index_lt i j r c : i < r -> j < c -> i * c + j < r * c.
Proof. intros Hi Hj. nia. Qed.

Lemma size_matrix x r c : shape x = [r; c] -> size x = r * c.
Proof. intros H. unfold size. rewrite H. simpl. lia. Qed.

Lemma ncols_matrix x r c : shape x = [r; c] -> ncols x = c.
Proof. intros H. unfold ncols. now rewrite H. Qed.

Lemma get2_ew f x y r c i j :
  shape x = [r; c] -> shape y = [r; c] -> i < r -> j < c ->
  get2 (ew f x y) i j = f (get2 x i j) (get2 y i j).
Proof.
  intros Hx Hy Hi Hj. unfold get2, ncols. cbn [ew shape]. rewrite Hx, Hy. cbn [nth].
  unfold flat at 1. cbn [ew data].
  rewrite nth_tab; [reflexivity|].
  rewrite (size_matrix _ Hx). now apply index_lt.
Qed.

Lemma get2_ewl f z x r c i j :
  shape x = [r; c] -> i < r -> j < c ->
  get2 (ewl f z x) i j = f (flat z 0) (get2 x i j).
Proof.
  intros Hx Hi Hj. unfold get2, ncols. cbn [ewl shape]. rewrite Hx. cbn [nth].
  unfold flat at 1. cbn [ewl data].
  rewrite nth_tab; [reflexivity|].
  rewrite (size_matrix _ Hx). now apply index_lt.
Qed.

Lemma get2_ewr f x z r c i j :
  shape x = [r; c] -> i < r -> j < c ->
  get2 (ewr f x z) i j = f (get2 x i j) (flat z 0).
Proof.
  intros Hx Hi Hj. unfold get2, ncols. cbn [ewr shape]. rewrite Hx. cbn [nth].
  unfold flat at 1. cbn [ewr data].
  rewrite nth_tab; [reflexivity|].
  rewrite (size_matrix _ Hx). now apply index_lt.
Qed.

Lemma div_mod_index i j c : j < c -> (i * c + j) / c = i /\ (i * c + j) mod c = j.
Proof.
  intros Hj. split.
  - rewrite Nat.div_add_l by lia. rewrite (Nat.div_small j c) by lia. lia.
  - rewrite Nat.add_comm, Nat.Div0.mod_add. now apply Nat.mod_small.
Qed.

Lemma get2_matrix d r c f i j :
  i < r -> j < c -> get2 (matrix d r c f) i j = f i j.
Proof.
  intros Hi Hj. unfold get2, ncols, flat. cbn [matrix shape data nth].
  rewrite nth_tab by now apply index_lt.
  destruct (div_mod_index i Hj) as [-> ->]. reflexivity.
Qed.

Lemma get2_mm x y r k c i j :
  shape x = [r; k] -> shape y = [k; c] -> i < r -> j < c ->
  get2 (mm x y) i j = dot k (fun t => get2 x i t) (fun t => get2 y t j).
Proof.
  intros Hx Hy Hi Hj. unfold mm.
  rewrite (ncols_matrix _ Hx), (ncols_matrix _ Hy), Hx. cbn [nth].
  now rewrite get2_matrix.
Qed.

Lemma dot_ext k f g g' :
  (forall t, t < k -> g t = g' t) -> dot k f g = dot k f g'.
Proof.
  intros H. unfold dot. f_equal. apply map_ext_in.
  intros t Ht. apply in_seq in Ht. rewrite H by lia. reflexivity.
Qed.

(** ** The solve *)

Lemma solve_unique P Q n r13 :
  shape P = [n; n] -> shape Q = [n; n] ->
  outcome (solve_ P Q) = Ok r13 ->
  is_solution P Q r13 /\ forall Y, is_solution P Q Y -> Y = r13.
Proof.
  intros HP HQ. unfold solve_, outcome, calling. cbn [snd].
  rewrite HP, HQ, !Nat.eqb_refl. cbn [negb].
  destruct (excluded_middle_informative (exists ! X : ndarray, is_solution P Q X))
    as [H|H]; [|discriminate].
  destruct (constructive_indefinite_description _ H) as [X [HX HU]].
  cbn [proj1_sig]. intros [= E]. subst r13. split; [exact HX|].
  intros Y HY. symmetry. now apply HU.
Qed.

Lemma solve_returns P Q n X :
  shape P = [n; n] -> shape Q = [n; n] ->
  is_solution P Q X -> (forall Y, is_solution P Q Y -> Y = X) ->
  solve_ P Q = after [call_solve] (ret X).
Proof.
  intros HP HQ HX HU. unfold solve_, calling.
  rewrite HP, HQ, !Nat.eqb_refl. cbn [negb].
  destruct (excluded_middle_informative (exists ! X : ndarray, is_solution P Q X))
    as [H|H].
  - destruct (constructive_indefinite_description _ H) as [X' [HX' HU']].
    cbn [proj1_sig]. now rewrite (HU _ HX').
  - exfalso. apply H. exists X. split; [exact HX|].
    intros Y HY. symmetry. now apply HU.
Qed.

(** ** The scale exponent *)

Lemma ceil_spec x : (IZR (ceil x) - 1 < x <= IZR (ceil x))%R.
Proof.
  unfold ceil. destruct (archimed (- x)) as [H1 H2].
  rewrite minus_IZR. lra.
Qed.

Lemma log2_pos x : (1 < x)%R -> (0 < log2 x)%R.
Proof.
  intros H. unfold log2. apply Rdiv_lt_0_compat.
  - rewrite <- ln_1. apply ln_increasing; lra.
  - rewrite <- ln_1. apply ln_increasing; lra.
Qed.

Lemma th13_pos : (0 < th13)%R.
Proof. unfold th13. lra. Qed.


(** The decimal 5.37 itself is below the threshold, the double above it is
    the threshold. *)
Lemma th13_above_decimal : (5.37 < th13)%R.
Proof. unfold th13. lra. Qed.

Lemma scale_exponent_scaled nrmA :
  (th13 < nrmA)%R -> scale_exponent nrmA = (ceil (log2 (nrmA / th13)) + 1)%Z.
Proof.
  intros H. unfold scale_exponent. now destruct (Rlt_dec th13 nrmA).
Qed.

Lemma scale_exponent_unscaled nrmA :
  (nrmA <= th13)%R -> scale_exponent nrmA = 1%Z.
Proof.
  intros H. unfold scale_exponent. destruct (Rlt_dec th13 nrmA); [lra|reflexivity].
Qed.


(** ** Worked examples *)

Example broadcast_outer_example :
  broadcast_shapes [2; 1; 3] [1; 4; 3] = Some [2; 4; 3].
Proof. reflexivity. Qed.

Example broadcast_refused_example : broadcast_shapes [2; 3] [2; 2] = None.
Proof. reflexivity. Qed.

Example source_index_example :
  map (source_index [2; 1] [2; 2]) [0; 1; 2; 3] = [0; 0; 1; 1].
Proof. reflexivity. Qed.

Lemma ceil_unique x z : (IZR z - 1 < x <= IZR z)%R -> ceil x = z.
Proof.
  intros [H1 H2]. destruct (ceil_spec x) as [H3 H4].
  assert (Ha : (IZR (ceil x) < IZR z + 1)%R) by lra.
  assert (Hb : (IZR z < IZR (ceil x) + 1)%R) by lra.
  rewrite <- plus_IZR in Ha, Hb. apply lt_IZR in Ha, Hb. lia.
Qed.

Example ceil_example : ceil 2.5 = 3%Z /\ ceil 2 = 2%Z /\ ceil (-0.5) = 0%Z.
Proof. repeat split; apply ceil_unique; lra. Qed.

Lemma Cmod_real x : Cmod (RtoC x) = Rabs x.
Proof.
  unfold Cmod, RtoC, Re, Im. cbn [fst snd].
  replace (x * x + 0 * 0)%R with (x²)%R by (unfold Rsqr; ring).
  apply sqrt_Rsqr_abs.
Qed.

(** The largest column sum of [[1,2],[3,4]] is 2 + 4. *)
Example one_norm_example : one_norm ex_b = 6%R.
Proof.
  unfold one_norm, ex_b, get2, ncols, flat. cbn [shape data nth map seq Nat.mul Nat.add].
  rewrite !Cmod_real. cbn [Rsum fold_right fold_left].
  rewrite !Rabs_pos_eq by lra.
  rewrite Rmax_right by lra. lra.
Qed.

(** For th13 < nrmA <= 2 th13 the exponent is 2. *)
Lemma scale_exponent_first_band nrmA :
  (th13 < nrmA <= 2 * th13)%R -> scale_exponent nrmA = 2%Z.
Proof.
  intros [H1 H2]. rewrite scale_exponent_scaled by assumption.
  pose proof th13_pos as Hp.
  assert (Hq : (1 < nrmA / th13 <= 2)%R).
  { split.
    - apply Rmult_lt_reg_r with th13; [assumption|].
      unfold Rdiv. rewrite Rmult_assoc, Rinv_l; lra.
    - apply Rmult_le_reg_r with th13; [assumption|].
      unfold Rdiv. rewrite Rmult_assoc, Rinv_l; lra. }
  assert (Hl : (0 < log2 (nrmA / th13) <= 1)%R).
  { split; [now apply log2_pos|]. set (q := (nrmA / th13)%R) in *. unfold log2.
    assert (H0 : (0 < ln 2)%R) by (rewrite <- ln_1; apply ln_increasing; lra).
    apply Rmult_le_reg_r with (ln 2); [assumption|].
    unfold Rdiv. rewrite Rmult_assoc, Rinv_l, Rmult_1_r, Rmult_1_l by lra.
    destruct (proj2 Hq) as [Hlt|Heq].
    - left. apply ln_increasing; lra.
    - right. now rewrite Heq. }
  rewrite (@ceil_unique _ 1%Z) by lra. reflexivity.
Qed.

Example scale_exponent_example :
  scale_exponent (one_norm ex_b) = 2%Z /\ scale_exponent th13 = 1%Z.
Proof.
  split.
  - rewrite one_norm_example. apply scale_exponent_first_band. unfold th13. lra.
  - apply scale_exponent_unscaled. unfold th13. lra.
Qed.

(** ** The squaring loop *)

Lemma squaring_run k : forall x n,
  shape x = [n; n] ->
  squaring k x
  = after (repeat call_matmul k) (ret (Nat.iter k (fun y => mm y y) x)).
Proof.
  induction k as [|k IH]; intros x n Hx.
  - reflexivity.
  - cbn [squaring]. unfold matmul. rewrite !bind_coerce.
    rewrite (matmul_matrix _ _ Hx Hx), bind_after, bind_ret.
    rewrite (IH _ n (mm_square _ _ Hx Hx)), after_after.
    now rewrite Nat.iter_succ_r.
Qed.

Lemma iter_mm_shape k : forall x n,
  shape x = [n; n] ->
  shape (Nat.iter k (fun y => mm y y) x) = [n; n] /\
  dtype (Nat.iter k (fun y => mm y y) x) = dtype x.
Proof.
  induction k as [|k IH]; intros x n Hx; [now split|].
  cbn [Nat.iter nat_rect]. destruct (IH x n Hx) as [Hs Hd].
  fold (Nat.iter k (fun y => mm y y) x).
  split; [now apply mm_square|].
  cbn [mm matrix dtype]. rewrite promote_same. exact Hd.
Qed.

(** ** The two outcomes of [expm] once the solve is reached *)

Lemma solve_outcome P Q n :
  shape P = [n; n] -> shape Q = [n; n] ->
  (exists r13, solve_ P Q = after [call_solve] (ret r13) /\ is_solution P Q r13) \/
  solve_ P Q = after [call_solve] (raise singular_error).
Proof.
  intros HP HQ. unfold solve_, calling.
  rewrite HP, HQ, !Nat.eqb_refl. cbn [negb].
  destruct (excluded_middle_informative (exists ! X : ndarray, is_solution P Q X))
    as [H|H]; [left|right; reflexivity].
  destruct (constructive_indefinite_description _ H) as [X [HX HU]].
  exists X. split; [reflexivity|exact HX].
Qed.

(** The exponential of line 124 returns its factor when that fits a double
    and raises otherwise. *)
Lemma exp_call_fits mu :
  exp_fits mu -> exp_call mu = ([call_exp], Ok (exp_factor mu)).
Proof.
  unfold exp_fits, exp_call, exp_factor, cmath_exp, math_exp, calling.
  destruct (iscomplexobj mu); cbn zeta.
  - intros [H1 H2].
    destruct (in_range_dec (Re (Cexp (flat mu 0)))); [|contradiction].
    destruct (in_range_dec (Im (Cexp (flat mu 0)))); [|contradiction].
    reflexivity.
  - intros H. destruct (in_range_dec (exp (Re (flat mu 0)))); [|contradiction].
    reflexivity.
Qed.

Lemma exp_call_overflow mu :
  ~ exp_fits mu -> exp_call mu = ([call_exp], Raise overflow_error).
Proof.
  unfold exp_fits, exp_call, cmath_exp, math_exp, calling.
  destruct (iscomplexobj mu); cbn zeta; intros H.
  - destruct (in_range_dec (Re (Cexp (flat mu 0)))); [|reflexivity].
    destruct (in_range_dec (Im (Cexp (flat mu 0)))); [|reflexivity].
    exfalso. apply H. now split.
  - destruct (in_range_dec (exp (Re (flat mu 0)))); [contradiction|reflexivity].
Qed.

Lemma exp_fits_dec mu : exp_fits mu \/ ~ exp_fits mu.
Proof.
  unfold exp_fits. destruct (iscomplexobj mu).
  - destruct (in_range_dec (Re (Cexp (flat mu 0)))) as [H1|H1];
      destruct (in_range_dec (Im (Cexp (flat mu 0)))) as [H2|H2];
      [left; now split|right; intros [_ H]; contradiction
      |right; intros [H _]; contradiction|right; intros [H _]; contradiction].
  - destruct (in_range_dec (exp (Re (flat mu 0)))); [now left|now right].
Qed.

Lemma shape_exp_factor mu : shape (exp_factor mu) = [].
Proof. unfold exp_factor. now destruct (iscomplexobj mu). Qed.

Lemma squared_back_unfold mu A0 r13 n :
  shape r13 = [n; n] ->
  squared_back_from mu A0 r13
  = after (repeat call_matmul (Z.to_nat (scale_exponent (one_norm A0))))
      (bind (exp_call mu)
         (fun e => multiply (Nat.iter (Z.to_nat (scale_exponent (one_norm A0)))
                               (fun y => mm y y) r13) e)).
Proof.
  intros Hr. unfold squared_back_from.
  now rewrite (@squaring_run _ r13 n Hr), bind_after, bind_ret.
Qed.

Lemma squared_back_exp mu A0 r13 n :
  shape r13 = [n; n] -> exp_fits mu ->
  squared_back_from mu A0 r13
  = (repeat call_matmul (Z.to_nat (scale_exponent (one_norm A0))) ++ [call_exp],
     Ok (ewr Cmul (Nat.iter (Z.to_nat (scale_exponent (one_norm A0)))
                            (fun y => mm y y) r13)
                  (exp_factor mu))).
Proof.
  intros Hr Hf. rewrite (@squared_back_unfold mu A0 r13 n Hr), (exp_call_fits mu Hf).
  rewrite bind_ok_after. unfold multiply, binary. rewrite !bind_coerce.
  rewrite ufunc_scalar_r by apply shape_exp_factor.
  now rewrite !after_after, after_ret.
Qed.

Lemma squared_back_overflow mu A0 r13 n :
  shape r13 = [n; n] -> ~ exp_fits mu ->
  squared_back_from mu A0 r13
  = (repeat call_matmul (Z.to_nat (scale_exponent (one_norm A0))) ++ [call_exp],
     Raise overflow_error).
Proof.
  intros Hr Hf. rewrite (@squared_back_unfold mu A0 r13 n Hr), (exp_call_overflow mu Hf).
  now rewrite bind_raise.
Qed.

Lemma squared_back_run mu A0 r13 n :
  shape r13 = [n; n] ->
  (exists x,
     squared_back_from mu A0 r13
     = (repeat call_matmul (Z.to_nat (scale_exponent (one_norm A0))) ++ [call_exp],
        Ok x) /\
     shape x = [n; n]) \/
  squared_back_from mu A0 r13
  = (repeat call_matmul (Z.to_nat (scale_exponent (one_norm A0))) ++ [call_exp],
     Raise overflow_error).
Proof.
  intros Hr. destruct (exp_fits_dec mu) as [Hf|Hf].
  - left. rewrite (@squared_back_exp mu A0 r13 n Hr Hf). eexists. split; [reflexivity|].
    exact (proj1 (@iter_mm_shape _ r13 n Hr)).
  - right. exact (@squared_back_overflow mu A0 r13 n Hr Hf).
Qed.

(** Once the solve is reached [expm] ends in one of three ways: with a
    matrix, with the overflow of the exponential of line 124, or with the
    singular system of the solve. *)
Lemma expm_outcome_from a n mu A0 P Q :
  shape P = [n; n] -> shape Q = [n; n] ->
  expm a = after expm_calls (bind (solve_ P Q) (squared_back_from mu A0)) ->
  (exists x,
     expm a
     = (expm_calls ++ call_solve
          :: repeat call_matmul (Z.to_nat (scale_exponent (one_norm A0)))
          ++ [call_exp], Ok x) /\
     shape x = [n; n]) \/
  expm a
  = (expm_calls ++ call_solve
       :: repeat call_matmul (Z.to_nat (scale_exponent (one_norm A0)))
       ++ [call_exp], Raise overflow_error) \/
  expm a = (expm_calls ++ [call_solve], Raise singular_error).
Proof.
  intros HP HQ ->.
  destruct (@solve_outcome P Q n HP HQ) as [(r13 & -> & (_ & Hs & _))| ->].
  - rewrite HQ in Hs. rewrite bind_after, bind_ret.
    destruct (@squared_back_run mu A0 r13 n Hs) as [(x & -> & Hx)| ->].
    + left. exists x. split; [|exact Hx].
      unfold after. cbn [fst snd]. reflexivity.
    + right. left. unfold after. cbn [fst snd]. reflexivity.
  - right. right. rewrite bind_after, after_after. unfold raise. now rewrite bind_raise.
Qed.

(** ** The Pade step *)

(** C1: with [A] the scaled matrix, [A2 = A A], [A4 = A2 A2], [A6 = A2 A4]
    and [E] the identity, [_expm_inner] returns the four parts with entries
    u1 = b13 A6 + b11 A4 + b9 A2, u2 = b7 A6 + b5 A4 + b3 A2 + b1 E,
    v1 = b12 A6 + b10 A4 + b8 A (the last term on [A] itself) and
    v2 = b6 A6 + b4 A4 + b2 A2 + b0 E; [expm] then solves
    (-u + v) r13 = u + v for u = A (A6 u1 + u2) and v = A6 v1 + v2, and the
    matrix the solve returns is the only solution. *)
Theorem pade13_parts (a : ndarray) (n : nat) :
  shape a = [n; n] -> 1 <= n ->
  let E := identity n in
  let A := scaled a n in
  let A2 := mm A A in
  let A4 := mm A2 A2 in
  let A6 := mm A2 A4 in
  let c k := RtoC (nth k b 0%R) in
  exists u1 u2 v1 v2,
    _expm_inner E A A2 A4 A6 (asarray b) = ([], Ok (u1, u2, v1, v2)) /\
    (forall i j, i < n -> j < n ->
       get2 u1 i j
       = Cadd (Cadd (Cmul (c 13) (get2 A6 i j)) (Cmul (c 11) (get2 A4 i j)))
              (Cmul (c 9) (get2 A2 i j)) /\
       get2 u2 i j
       = Cadd (Cadd (Cadd (Cmul (c 7) (get2 A6 i j)) (Cmul (c 5) (get2 A4 i j)))
                    (Cmul (c 3) (get2 A2 i j)))
              (Cmul (c 1) (get2 E i j)) /\
       get2 v1 i j
       = Cadd (Cadd (Cmul (c 12) (get2 A6 i j)) (Cmul (c 10) (get2 A4 i j)))
              (Cmul (c 8) (get2 A i j)) /\
       get2 v2 i j
       = Cadd (Cadd (Cadd (Cmul (c 6) (get2 A6 i j)) (Cmul (c 4) (get2 A4 i j)))
                    (Cmul (c 2) (get2 A2 i j)))
              (Cmul (c 0) (get2 E i j))) /\
    let u := mm A (ew Cadd (mm A6 u1) u2) in
    let v := ew Cadd (mm A6 v1) v2 in
    let P := ew Cadd (neg u) v in
    let Q := ew Cadd u v in
    (forall i j, i < n -> j < n ->
       get2 u i j
       = dot n (fun t => get2 A i t)
               (fun t => Cadd (dot n (fun s => get2 A6 t s) (fun s => get2 u1 s j))
                              (get2 u2 t j)) /\
       get2 v i j
       = Cadd (dot n (fun s => get2 A6 i s) (fun s => get2 v1 s j))
              (get2 v2 i j)) /\
    expm a = after expm_calls (bind (solve_ P Q) (squared_back a n)) /\
    forall r13, outcome (solve_ P Q) = Ok r13 ->
      shape r13 = [n; n] /\ data (mm P r13) = data Q /\
      forall Y, is_solution P Q Y -> Y = r13.
Proof.
  intros Ha Hn E A A2 A4 A6 c.
  assert (HA : shape A = [n; n]) by exact Ha.
  assert (HE : shape E = [n; n]) by reflexivity.
  pose proof (mm_square _ _ HA HA) as H2. fold A2 in H2.
  pose proof (mm_square _ _ H2 H2) as H4. fold A4 in H4.
  pose proof (mm_square _ _ H2 H4) as H6. fold A6 in H6.
  exists (pade_u1 A2 A4 A6), (pade_u2 E A2 A4 A6), (pade_v1 A A4 A6),
         (pade_v2 E A2 A4 A6).
  split; [exact (expm_inner_run _ _ _ _ _ HE HA H2 H4 H6)|].
  split.
  - intros i j Hi Hj. unfold pade_u1, pade_u2, pade_v1, pade_v2.
    repeat split;
      repeat first
        [ rewrite (@get2_ew _ _ _ n n i j) by (try assumption; cbn; congruence)
        | rewrite (@get2_ewl _ _ _ n n i j) by assumption ];
      reflexivity.
  - intros u v P Q.
    assert (Hu1 : shape (pade_u1 A2 A4 A6) = [n; n]) by exact H6.
    assert (Hu2 : shape (pade_u2 E A2 A4 A6) = [n; n]) by exact H6.
    assert (Hv1 : shape (pade_v1 A A4 A6) = [n; n]) by exact H6.
    assert (Hv2 : shape (pade_v2 E A2 A4 A6) = [n; n]) by exact H6.
    pose proof (mm_square _ _ H6 Hu1) as H6u1.
    pose proof (mm_square _ _ H6 Hv1) as H6v1.
    split.
    { intros i j Hi Hj. split.
      - unfold u. rewrite (@get2_mm _ _ n n n i j) by (try assumption; exact H6u1).
        apply dot_ext. intros t Ht.
        rewrite (@get2_ew _ _ _ n n t j) by assumption.
        now rewrite (@get2_mm _ _ n n n t j).
      - unfold v. rewrite (@get2_ew _ _ _ n n i j) by assumption.
        now rewrite (@get2_mm _ _ n n n i j). }
    split; [exact (@expm_run a n Ha Hn)|].
    assert (HQ : shape Q = [n; n]) by exact (mm_square _ _ HA H6u1).
    assert (HP : shape P = [n; n]) by exact HQ.
    intros r13 Hr. destruct (@solve_unique P Q n r13 HP HQ Hr) as [(_ & Hs & _ & Hd) HU].
    repeat split; [congruence|exact Hd|exact HU].
Qed.

Lemma pade13_parts_witness :
  exists m, expm (zeros [1; 1] float64) = after expm_calls m.
Proof.
  destruct (@pade13_parts (zeros [1; 1] float64) 1 eq_refl (le_n 1))
    as (u1 & u2 & v1 & v2 & _ & _ & _ & H & _).
  eexists. exact H.
Defined.

(** ** Scaling and squaring *)



(** ** Complex arithmetic *)

Lemma Cmul_0_l z : Cmul C0 z = C0.
Proof. destruct z. unfold Cmul, C0, RtoC, Re, Im. cbn. f_equal; ring. Qed.

Lemma Cmul_0_r z : Cmul z C0 = C0.
Proof. destruct z. unfold Cmul, C0, RtoC, Re, Im. cbn. f_equal; ring. Qed.

Lemma Cmul_1_l z : Cmul C1 z = z.
Proof. destruct z. unfold Cmul, C1, RtoC, Re, Im. cbn. f_equal; ring. Qed.

Lemma Cmul_1_r z : Cmul z C1 = z.
Proof. destruct z. unfold Cmul, C1, RtoC, Re, Im. cbn. f_equal; ring. Qed.

Lemma Cadd_0_l z : Cadd C0 z = z.
Proof. destruct z. unfold Cadd, C0, RtoC, Re, Im. cbn. f_equal; ring. Qed.

Lemma Cadd_0_r z : Cadd z C0 = z.
Proof. destruct z. unfold Cadd, C0, RtoC, Re, Im. cbn. f_equal; ring. Qed.

Lemma Csub_0_r z : Csub z C0 = z.
Proof. destruct z. unfold Csub, C0, RtoC, Re, Im. cbn. f_equal; ring. Qed.

Lemma Copp_0 : Copp C0 = C0.
Proof. unfold Copp, C0, RtoC, Re, Im. cbn. f_equal; ring. Qed.

Lemma Cdiv_0_l w : Cdiv C0 w = C0.
Proof.
  destruct w. unfold Cdiv, C0, RtoC, Re, Im, Rdiv. cbn. f_equal; ring.
Qed.

Lemma Cmod_0 : Cmod C0 = 0%R.
Proof.
  unfold Cmod, C0, RtoC, Re, Im. cbn.
  replace (0 * 0 + 0 * 0)%R with 0%R by ring. apply sqrt_0.
Qed.

Lemma Cexp_0 : Cexp C0 = C1.
Proof.
  unfold Cexp, C0, C1, RtoC, Re, Im. cbn. rewrite exp_0, cos_0, sin_0.
  f_equal; ring.
Qed.

Lemma Cmul_real_cancel r z w : r <> 0%R -> Cmul (RtoC r) z = Cmul (RtoC r) w -> z = w.
Proof.
  destruct z as [z1 z2], w as [w1 w2]. unfold Cmul, RtoC, Re, Im. cbn.
  intros Hr [= H1 H2]. f_equal; apply Rmult_eq_reg_l with r; trivial; lra.
Qed.

Create Rewrite HintDb cplx.
#[local] Hint Rewrite Cmul_0_l Cmul_0_r Cmul_1_l Cmul_1_r Cadd_0_l Cadd_0_r
  Csub_0_r Copp_0 Cdiv_0_l : cplx.

Lemma Csum_zeros l : Csum (map (fun _ : nat => C0) l) = C0.
Proof.
  unfold Csum. induction l as [|x l IH]; cbn [map fold_right]; [reflexivity|].
  now rewrite IH, Cadd_0_l.
Qed.

(** A sum in which only the term at [i] is not zero. *)
Lemma Csum_single z g i n : forall s,
  s <= i < s + n ->
  Csum (map (fun t => Cmul (if i =? t then z else C0) (g t)) (seq s n))
  = Cmul z (g i).
Proof.
  induction n as [|n IH]; intros s Hi; [lia|].
  cbn [seq map Csum fold_right].
  destruct (Nat.eqb_spec i s) as [->|Hne].
  - assert (H0 : fold_right Cadd C0
             (map (fun t => Cmul (if s =? t then z else C0) (g t)) (seq (S s) n))
             = C0).
    { erewrite map_ext_in; [apply (Csum_zeros (seq (S s) n))|].
      intros t Ht. apply in_seq in Ht.
      destruct (Nat.eqb_spec s t); [lia|apply Cmul_0_l]. }
    rewrite H0. apply Cadd_0_r.
  - rewrite Cmul_0_l, Cadd_0_l. apply IH. lia.
Qed.

(** ** Scalar matrices *)

Lemma matrix_ext d r c f g :
  (forall i j, i < r -> j < c -> f i j = g i j) -> matrix d r c f = matrix d r c g.
Proof.
  intros H. unfold matrix. f_equal. apply tab_ext. intros p Hp.
  assert (Hc : c <> 0) by (intros ->; lia).
  apply H.
  - apply Nat.Div0.div_lt_upper_bound. lia.
  - now apply Nat.mod_upper_bound.
Qed.

Lemma zeros_smat n d : zeros [n; n] d = smat d n C0.
Proof.
  unfold zeros, smat, matrix. cbn [prod fold_right]. rewrite Nat.mul_1_r.
  f_equal. apply tab_ext. intros p _. now destruct (p / n =? p mod n).
Qed.

Lemma flat_smat d n z p :
  p < n * n -> flat (smat d n z) p = if p / n =? p mod n then z else C0.
Proof. intros Hp. unfold flat, smat, matrix. cbn [data]. now rewrite nth_tab. Qed.

Lemma get2_smat d n z i j :
  i < n -> j < n -> get2 (smat d n z) i j = if i =? j then z else C0.
Proof. intros Hi Hj. unfold smat. now rewrite get2_matrix. Qed.

Lemma smat_eq d n z :
  smat d n z
  = mk_ndarray d [n; n] (tab (n * n) (fun p => if p / n =? p mod n then z else C0)).
Proof. reflexivity. Qed.

Lemma ew_smat f d1 d2 n z w :
  f C0 C0 = C0 ->
  ew f (smat d1 n z) (smat d2 n w) = smat (promote d1 d2) n (f z w).
Proof.
  intros Hf. unfold ew. rewrite (@size_matrix (smat d1 n z) n n eq_refl).
  rewrite (smat_eq (promote _ _)). cbn [smat matrix dtype shape]. f_equal.
  apply tab_ext. intros p Hp. rewrite !flat_smat by assumption.
  now destruct (p / n =? p mod n).
Qed.

Lemma ewl_smat f s d n w :
  f (flat s 0) C0 = C0 ->
  ewl f s (smat d n w) = smat (promote (dtype s) d) n (f (flat s 0) w).
Proof.
  intros Hf. unfold ewl. rewrite (@size_matrix (smat d n w) n n eq_refl).
  rewrite (smat_eq (promote _ _)). cbn [smat matrix dtype shape]. f_equal.
  apply tab_ext. intros p Hp. rewrite !flat_smat by assumption.
  now destruct (p / n =? p mod n).
Qed.

Lemma ewr_smat f d n w s :
  f C0 (flat s 0) = C0 ->
  ewr f (smat d n w) s = smat (promote d (dtype s)) n (f w (flat s 0)).
Proof.
  intros Hf. unfold ewr. rewrite (@size_matrix (smat d n w) n n eq_refl).
  rewrite (smat_eq (promote _ _)). cbn [smat matrix dtype shape]. f_equal.
  apply tab_ext. intros p Hp. rewrite !flat_smat by assumption.
  now destruct (p / n =? p mod n).
Qed.

Lemma neg_smat d n z : neg (smat d n z) = smat d n (Copp z).
Proof.
  unfold neg, smat, matrix, tab. cbn [dtype shape data]. f_equal.
  rewrite map_map. apply map_ext. intros p.
  destruct (p / n =? p mod n); [reflexivity|apply Copp_0].
Qed.

Lemma mm_smat_l d n z X :
  shape X = [n; n] ->
  mm (smat d n z) X
  = matrix (promote d (dtype X)) n n (fun i j => Cmul z (get2 X i j)).
Proof.
  intros HX. unfold mm. rewrite (ncols_matrix _ HX).
  cbn [smat matrix shape dtype nth ncols]. apply matrix_ext. intros i j Hi Hj.
  unfold dot. erewrite map_ext_in.
  - apply (@Csum_single z (fun t => get2 X t j) i n 0). lia.
  - intros t Ht. apply in_seq in Ht. cbn beta.
    change (matrix d n n (fun i0 j0 => if i0 =? j0 then z else C0)) with (smat d n z).
    rewrite get2_smat by lia. reflexivity.
Qed.

Lemma mm_smat d1 d2 n z w :
  mm (smat d1 n z) (smat d2 n w) = smat (promote d1 d2) n (Cmul z w).
Proof.
  rewrite mm_smat_l by reflexivity. cbn [smat matrix dtype].
  apply matrix_ext. intros i j Hi Hj.
  change (matrix d2 n n (fun i0 j0 => if i0 =? j0 then w else C0)) with (smat d2 n w).
  rewrite get2_smat by assumption.
  destruct (i =? j); [reflexivity|apply Cmul_0_r].
Qed.

Lemma solve_smat d n r :
  r <> 0%R ->
  solve_ (smat d n (RtoC r)) (smat d n (RtoC r))
  = after [call_solve] (ret (smat d n C1)).
Proof.
  intros Hr. apply (@solve_returns _ _ n); try reflexivity.
  - repeat split.
    + unfold wf. rewrite (@size_matrix (smat d n C1) n n eq_refl).
      apply length_tab.
    + cbn [dtype smat matrix]. now destruct d.
    + now rewrite mm_smat, Cmul_1_r.
  - intros Y (Hwf & Hsh & Hdt & Hdata).
    change (shape (smat d n (RtoC r))) with [n; n] in Hsh.
    rewrite (mm_smat_l _ _ _ Hsh) in Hdata.
    assert (Hflat : forall p, p < n * n ->
              flat Y p = if p / n =? p mod n then C1 else C0).
    { intros p Hp.
      apply (f_equal (fun l => nth p l C0)) in Hdata.
      change (nth p (data (smat d n (RtoC r))) C0) with (flat (smat d n (RtoC r)) p)
        in Hdata.
      rewrite flat_smat in Hdata by assumption.
      cbn [matrix data] in Hdata. rewrite nth_tab in Hdata by assumption.
      unfold get2 in Hdata. rewrite (ncols_matrix _ Hsh) in Hdata.
      assert (Hn : n <> 0) by (intros ->; lia).
      replace (p / n * n + p mod n) with p in Hdata
        by (pose proof (Nat.div_mod_eq p n); lia).
      apply (@Cmul_real_cancel r); [assumption|]. rewrite Hdata.
      destruct (p / n =? p mod n); [now rewrite Cmul_1_r|now rewrite Cmul_0_r]. }
    destruct Y as [dY sY lY]. cbn [shape dtype data] in *. subst sY.
    unfold wf, size in Hwf. cbn [shape data prod fold_right] in Hwf.
    rewrite Nat.mul_1_r in Hwf.
    rewrite smat_eq. f_equal.
    + rewrite Hdt. now destruct d.
    + rewrite <- (tab_data lY), Hwf. apply tab_ext. intros p Hp.
      exact (Hflat p Hp).
Qed.

Lemma fold_left_Rmax_zeros l :
  fold_left Rmax (map (fun _ : nat => 0%R) l) 0%R = 0%R.
Proof.
  induction l as [|x l IH]; cbn [map fold_left]; [reflexivity|].
  now rewrite Rmax_left by lra.
Qed.

Lemma Rsum_zeros l : Rsum (map (fun _ : nat => 0%R) l) = 0%R.
Proof.
  unfold Rsum. induction l as [|x l IH]; cbn [map fold_right]; [reflexivity|].
  rewrite IH. ring.
Qed.

Lemma one_norm_zero d n : one_norm (smat d n C0) = 0%R.
Proof.
  unfold one_norm. rewrite (@ncols_matrix (smat d n C0) n n eq_refl).
  cbn [smat matrix shape nth].
  change (matrix d n n (fun i j => if i =? j then C0 else C0)) with (smat d n C0).
  erewrite map_ext_in with (g := fun _ => 0%R).
  - destruct (seq 0 n) as [|x l]; cbn [map]; [reflexivity|].
    apply fold_left_Rmax_zeros.
  - intros j Hj. apply in_seq in Hj.
    erewrite map_ext_in with (g := fun _ => 0%R); [apply Rsum_zeros|].
    intros i Hi. apply in_seq in Hi. rewrite get2_smat by lia.
    destruct (i =? j); apply Cmod_0.
Qed.

Lemma trace_mean_zero d n :
  trace_mean (smat d n C0) n = scalar d C0.
Proof.
  unfold trace_mean, ew, scalar, py_int, py_float, size.
  cbn [shape dtype prod fold_right tab seq map flat data nth smat matrix].
  rewrite promote_float64_r. do 2 f_equal.
  change (matrix d n n (fun i j => if i =? j then C0 else C0)) with (smat d n C0).
  erewrite tab_ext with (h := fun _ => C0).
  - unfold tab. rewrite Csum_zeros. apply Cdiv_0_l.
  - intros i Hi. rewrite get2_smat by assumption. now destruct (i =? i).
Qed.

(** ** The range of doubles *)

Lemma dbl_max_ge_1 : (1 <= dbl_max)%R.
Proof.
  unfold dbl_max. apply (IZR_le 1). apply Z.leb_le. vm_compute. reflexivity.
Qed.

Lemma in_range_unit x : (Rabs x <= 1)%R -> in_range x.
Proof. intros H. unfold in_range. pose proof dbl_max_ge_1. lra. Qed.

Lemma in_range_0 : in_range 0.
Proof. apply in_range_unit. rewrite Rabs_R0. lra. Qed.

Lemma in_range_1 : in_range 1.
Proof. apply in_range_unit. rewrite Rabs_R1. lra. Qed.

Lemma exp_fits_zero d : exp_fits (scalar d C0).
Proof.
  unfold exp_fits, iscomplexobj. cbn [scalar dtype flat data nth].
  destruct d; cbn [is_complex].
  - cbn [C0 RtoC Re fst]. rewrite exp_0. apply in_range_1.
  - rewrite Cexp_0. split; [apply in_range_1|apply in_range_0].
Qed.

Lemma exp_factor_zero d : exp_factor (scalar d C0) = scalar d C1.
Proof.
  unfold exp_factor, iscomplexobj. cbn [scalar dtype flat data nth].
  destruct d; cbn [is_complex].
  - cbn [C0 RtoC Re fst]. now rewrite exp_0.
  - now rewrite Cexp_0.
Qed.

(** ** [expm] of the zero matrix *)

Ltac smat_norm :=
  repeat first
    [ rewrite mm_smat
    | rewrite neg_smat
    | rewrite ewl_smat by apply Cmul_0_r
    | rewrite ewr_smat by first [apply Cmul_0_l | apply Cdiv_0_l]
    | rewrite ew_smat by first [apply Cadd_0_l | apply Csub_0_r] ];
  cbn [promote dtype coef py_float py_complex pow2 scalar];
  autorewrite with cplx.

Lemma shifted_zero d n : shifted (smat d n C0) n = smat d n C0.
Proof.
  unfold shifted, identity. rewrite trace_mean_zero.
  destruct d; smat_norm; reflexivity.
Qed.

Lemma scaled_zero d n : scaled (smat d n C0) n = smat d n C0.
Proof.
  unfold scaled, scaled_from. rewrite shifted_zero.
  destruct d; smat_norm; reflexivity.
Qed.

Lemma scaled_from_zero d n : scaled_from (smat d n C0) = smat d n C0.
Proof. rewrite <- (shifted_zero d n) at 1. exact (scaled_zero d n). Qed.

Lemma pade_u_zero d n : pade_u (identity n) (smat d n C0) = smat d n C0.
Proof.
  unfold pade_u, pade_u1, pade_u2, identity.
  destruct d; smat_norm; reflexivity.
Qed.

Lemma pade_v_zero d n :
  pade_v (identity n) (smat d n C0) = smat d n (RtoC (nth 0 b 0%R)).
Proof.
  unfold pade_v, pade_v1, pade_v2, identity.
  destruct d; smat_norm; reflexivity.
Qed.

Lemma b0_nonzero : nth 0 b 0%R <> 0%R.
Proof. cbn [nth b]. lra. Qed.

Lemma expm_zero_run d n :
  1 <= n ->
  expm (smat d n C0)
  = (expm_calls ++ [call_solve; call_matmul; call_exp], Ok (smat d n C1)).
Proof.
  intros Hn. rewrite (@expm_run (smat d n C0) n eq_refl Hn). cbn zeta.
  rewrite scaled_zero, pade_u_zero, pade_v_zero.
  rewrite neg_smat, !ew_smat by apply Cadd_0_l.
  autorewrite with cplx. rewrite promote_same.
  rewrite (solve_smat _ _ b0_nonzero), bind_after, bind_ret.
  unfold squared_back. rewrite shifted_zero, trace_mean_zero.
  rewrite (@squared_back_exp _ _ (smat d n C1) n eq_refl (exp_fits_zero d)).
  rewrite one_norm_zero, exp_factor_zero.
  rewrite scale_exponent_unscaled by (pose proof th13_pos; lra).
  change (Z.to_nat 1) with 1.
  cbn [Nat.iter nat_rect repeat]. rewrite mm_smat.
  rewrite ewr_smat by apply Cmul_0_l.
  cbn [promote dtype scalar flat data nth]. autorewrite with cplx.
  rewrite !promote_same. reflexivity.
Qed.

(** C3: [expm] of the n-by-n zero matrix is the n-by-n identity, in the
    scalar field of the input.  For n >= 1 the steps are these: mu is 0 and
    the shift leaves the zero matrix; its norm is 0, so s = 1, and the
    scaled matrix and its powers are zero; [_expm_inner] returns
    (0, b1 E, 0, b0 E), so u = 0 and v = b0 E and the solve is
    solve(b0 E, b0 E), which gives the identity; the one squaring keeps the
    identity; the factor of line 124 is exp(0) = 1. *)
Theorem expm_zero_matrix (n : nat) (d : scalar_field) :
  let O := zeros [n; n] d in
  outcome (expm O) = Ok (smat d n C1) /\
  (1 <= n ->
   let E := identity n in
   let mu := scalar d C0 in
   let b0E := smat d n (RtoC (nth 0 b 0%R)) in
   let b1E := smat d n (RtoC (nth 1 b 0%R)) in
   let I := smat d n C1 in
   true_divide (sum (diag O)) (py_int (Z.of_nat n))
   = ([call_diag; call_sum], Ok mu) /\
   subtract O (multiply (eye n) mu) = ([call_eye], Ok O) /\
   norm1 O = ([call_norm], Ok 0%R) /\
   scale_exponent 0 = 1%Z /\
   true_divide O (pow2 1) = ([], Ok O) /\
   matmul O O = ([call_matmul], Ok O) /\
   _expm_inner E O O O O (asarray b) = ([], Ok (O, b1E, O, b0E)) /\
   matmul O (add (matmul O O) b1E) = ([call_matmul; call_matmul], Ok O) /\
   add (matmul O O) b0E = ([call_matmul], Ok b0E) /\
   add (negative O) b0E = ([], Ok b0E) /\
   add O b0E = ([], Ok b0E) /\
   solve b0E b0E = ([call_solve], Ok I) /\
   squaring 1 I = ([call_matmul], Ok I) /\
   (if iscomplexobj mu then cmath_exp mu else math_exp mu)
   = ([call_exp], Ok (scalar d C1)) /\
   multiply I (scalar d C1) = ([], Ok I) /\
   expm O = (expm_calls ++ [call_solve; call_matmul; call_exp], Ok I)).
Proof.
  cbv zeta. split.
  { destruct n as [|n]; [reflexivity|].
    rewrite zeros_smat, expm_zero_run by lia. reflexivity. }
  intros Hn. rewrite !zeros_smat.
  set (O := smat d n C0).
  assert (HO : shape O = [n; n]) by reflexivity.
  assert (Hmm : matmul O O = ([call_matmul], Ok O)).
  { unfold matmul. rewrite !bind_coerce, (matmul_matrix _ _ HO HO), after_ret.
    unfold O. now rewrite mm_smat, promote_same, Cmul_0_l. }
  split.
  { rewrite (@mean_run O n HO). unfold O. now rewrite trace_mean_zero. }
  split.
  { pose proof (@shift_run O n HO) as H. unfold O in H.
    now rewrite trace_mean_zero, shifted_zero in H. }
  split.
  { rewrite (norm1_matrix _ HO Hn), after_ret. unfold O. now rewrite one_norm_zero. }
  assert (Hs : scale_exponent 0 = 1%Z).
  { apply scale_exponent_unscaled. pose proof th13_pos. lra. }
  split; [exact Hs|].
  split.
  { pose proof (scale_run O) as H. unfold O in H.
    now rewrite one_norm_zero, Hs, scaled_from_zero in H. }
  split; [exact Hmm|].
  split.
  { rewrite (@expm_inner_run (identity n) O O O O [n; n]) by reflexivity.
    unfold pade_u1, pade_u2, pade_v1, pade_v2, identity, O, ret.
    destruct d; smat_norm; reflexivity. }
  split.
  { unfold add, binary. rewrite Hmm, bind_ok_after, bind_coerce.
    rewrite ufunc_same by reflexivity. unfold O at 2.
    rewrite ew_smat by apply Cadd_0_l. rewrite promote_same, Cadd_0_l.
    unfold matmul. rewrite bind_coerce, bind_after, bind_ret.
    rewrite (@matmul_matrix O (smat d n (RtoC (nth 1 b 0%R))) n n n HO eq_refl).
    rewrite after_after, after_ret.
    unfold O. now rewrite mm_smat, promote_same, Cmul_0_l. }
  split.
  { unfold add, binary. rewrite Hmm, bind_ok_after, bind_coerce.
    rewrite ufunc_same by reflexivity. unfold O.
    rewrite ew_smat by apply Cadd_0_l. now rewrite promote_same, Cadd_0_l, after_ret. }
  split.
  { unfold add, negative, binary. rewrite !bind_coerce.
    change (mk_ndarray (dtype O) (shape O) (map Copp (data O))) with (neg O).
    unfold O. rewrite neg_smat, Copp_0.
    rewrite ufunc_same by reflexivity.
    rewrite ew_smat by apply Cadd_0_l. now rewrite promote_same, Cadd_0_l. }
  split.
  { unfold add, binary. rewrite !bind_coerce.
    rewrite ufunc_same by reflexivity. unfold O.
    rewrite ew_smat by apply Cadd_0_l. now rewrite promote_same, Cadd_0_l. }
  split.
  { unfold solve. rewrite !bind_coerce, (solve_smat _ _ b0_nonzero). apply after_ret. }
  split.
  { rewrite (@squaring_run 1 (smat d n C1) n eq_refl), after_ret.
    cbn [Nat.iter nat_rect repeat]. now rewrite mm_smat, promote_same, Cmul_1_l. }
  split.
  { change (exp_call (scalar d C0) = ([call_exp], Ok (scalar d C1))).
    now rewrite (exp_call_fits _ (exp_fits_zero d)), exp_factor_zero. }
  split.
  { unfold multiply, binary. rewrite !bind_coerce.
    rewrite ufunc_scalar_r by reflexivity.
    rewrite ewr_smat by apply Cmul_0_l.
    cbn [scalar dtype flat data nth]. now rewrite promote_same, Cmul_1_l. }
  unfold O. now apply expm_zero_run.
Qed.

Lemma expm_zero_matrix_witness :
  solve (smat float64 2 (RtoC (nth 0 b 0%R))) (smat float64 2 (RtoC (nth 0 b 0%R)))
  = ([call_solve], Ok (smat float64 2 C1)) /\
  expm (zeros [2; 2] float64)
  = (expm_calls ++ [call_solve; call_matmul; call_exp], Ok (smat float64 2 C1)).
Proof.
  destruct (proj2 (expm_zero_matrix 2 float64) (le_S 1 1 (le_n 1)))
    as (_ & _ & _ & _ & _ & _ & _ & _ & _ & _ & _ & H & _ & _ & _ & R).
  split; [exact H|exact R].
Defined.

(** ** Inputs that are not square *)

Lemma broadcast_mismatch r c :
  2 <= r -> 2 <= c -> r <> c -> broadcast_shapes [r; c] [r; r] = None.
Proof.
  intros Hr Hc Hne. unfold broadcast_shapes. cbn [rev app broadcast_rev].
  unfold broadcast_dim at 1.
  destruct (Nat.eqb_spec c r); [lia|].
  destruct (Nat.eqb_spec c 1); [lia|].
  destruct (Nat.eqb_spec r 1); [lia|]. reflexivity.
Qed.

Lemma expm_wide a r c :
  shape a = [r; c] -> 2 <= r -> 2 <= c -> r <> c ->
  expm a = ([call_diag; call_sum; call_eye], Raise broadcast_error).
Proof.
  intros Ha Hr Hc Hne. unfold expm.
  assert (Hs : (size a =? 0) = false).
  { apply Nat.eqb_neq. unfold size. rewrite Ha. simpl. nia. }
  rewrite Hs. unfold shape_at at 1. rewrite Ha. cbn [nth_error]. rewrite bind_ret.
  unfold true_divide, subtract, multiply at 1, binary, sum.
  rewrite (diag_rect _ Ha).
  rewrite !bind_after, !bind_ret, !calling_ok, !bind_after, !bind_ret, bind_coerce.
  rewrite ufunc_same by reflexivity.
  rewrite !bind_ret, bind_coerce.
  unfold eye. rewrite calling_ok, !bind_after, !bind_ret, bind_coerce.
  rewrite ufunc_scalar_r by reflexivity. rewrite bind_ret.
  unfold ufunc at 1. cbn [shape ewr matrix]. rewrite Ha.
  rewrite (broadcast_mismatch Hr Hc Hne). reflexivity.
Qed.

Lemma expm_one_row a c :
  shape a = [1; c] -> 2 <= c ->
  expm a
  = ([call_diag; call_sum; call_eye; call_norm; call_matmul], Raise matmul_error).
Proof.
  intros Ha Hc. unfold expm.
  assert (Hs : (size a =? 0) = false).
  { apply Nat.eqb_neq. unfold size. rewrite Ha. simpl. nia. }
  rewrite Hs. unfold shape_at at 1. rewrite Ha. cbn [nth_error]. rewrite bind_ret.
  unfold true_divide, subtract, multiply at 1, binary, sum.
  rewrite (diag_rect _ Ha).
  rewrite !bind_after, !bind_ret, !calling_ok, !bind_after, !bind_ret, bind_coerce.
  rewrite ufunc_same by reflexivity.
  rewrite !bind_ret, bind_coerce.
  unfold eye. rewrite calling_ok, !bind_after, !bind_ret, bind_coerce.
  rewrite ufunc_scalar_r by reflexivity. rewrite bind_ret.
  unfold ufunc at 1. cbn [shape ewr matrix]. rewrite Ha.
  assert (Hb : broadcast_shapes [1; c] [1; 1] = Some [1; c]).
  { unfold broadcast_shapes. cbn [rev app broadcast_rev].
    now rewrite broadcast_dim_1_r. }
  rewrite Hb, bind_ret.
  match goal with |- context [norm1 ?X] => set (A0 := X) end.
  assert (HA0 : shape A0 = [1; c]) by reflexivity.
  rewrite (norm1_matrix _ HA0) by lia. rewrite bind_after, bind_ret.
  rewrite !bind_coerce. rewrite ufunc_scalar_r by reflexivity. rewrite bind_ret.
  match goal with |- context [matmul (as_computation ?X) _] => set (A := X) end.
  assert (HA : shape A = [1; c]) by reflexivity.
  unfold matmul at 1. rewrite !bind_coerce. unfold matmul_ at 1. rewrite HA.
  destruct (Nat.eqb_spec c 1); [lia|]. reflexivity.
Qed.

Lemma expm_nonsquare a r c :
  shape a = [r; c] -> 1 <= r -> 2 <= c -> r <> c ->
  expm a = (nonsquare_calls r, Raise (nonsquare_error r)).
Proof.
  intros Ha Hr Hc Hne. unfold nonsquare_calls, nonsquare_error.
  destruct (Nat.eqb_spec r 1) as [->|H1].
  - now apply (@expm_one_row a c).
  - apply (@expm_wide a r c); trivial; lia.
Qed.

(** A single column is not refused: it is broadcast against [eye(n)]. *)
Lemma broadcast_column n : broadcast_shapes [n; 1] [n; n] = Some [n; n].
Proof.
  unfold broadcast_shapes. cbn [rev app broadcast_rev].
  now rewrite broadcast_dim_1_l, broadcast_dim_same.
Qed.

Lemma expm_column a n :
  shape a = [n; 1] -> 2 <= n ->
  (exists x, outcome (expm a) = Ok x /\ shape x = [n; n]) \/
  outcome (expm a) = Raise overflow_error \/
  outcome (expm a) = Raise singular_error.
Proof.
  intros Ha Hn.
  set (mu := ew Cdiv (scalar (dtype a) (Csum (tab (Nat.min n 1) (fun i => get2 a i i))))
                     (py_int (Z.of_nat n))).
  set (X := ewr Cmul (identity n) mu).
  set (A0 := mk_ndarray (promote (dtype a) (dtype X)) [n; n]
               (tab (prod [n; n]) (fun p =>
                  Csub (flat a (source_index [n; 1] [n; n] p))
                       (flat X (source_index [n; n] [n; n] p))))).
  assert (HA0 : shape A0 = [n; n]) by reflexivity.
  assert (Hrun : expm a = after expm_calls
            (bind (solve_ (ew Cadd (neg (pade_u (identity n) (scaled_from A0)))
                                   (pade_v (identity n) (scaled_from A0)))
                          (ew Cadd (pade_u (identity n) (scaled_from A0))
                                   (pade_v (identity n) (scaled_from A0))))
                  (squared_back_from mu A0))).
  { apply (@expm_run_from a n n mu A0); trivial; try lia.
    - apply Nat.eqb_neq. unfold size. rewrite Ha. simpl. nia.
    - unfold shape_at. now rewrite Ha.
    - exact (trace_mean_run _ Ha).
    - unfold subtract, multiply, binary, eye.
      rewrite calling_ok, !bind_coerce, !bind_after, !bind_ret, bind_coerce.
      rewrite ufunc_scalar_r by reflexivity. rewrite bind_ret.
      unfold ufunc. fold (identity n). fold X. rewrite Ha.
      change (shape X) with [n; n]. now rewrite broadcast_column. }
  assert (HS : shape (scaled_from A0) = [n; n]) by reflexivity.
  destruct (@pade13_shapes_from (scaled_from A0) n HS) as [HU HV].
  destruct (@expm_outcome_from a n mu A0
              (ew Cadd (neg (pade_u (identity n) (scaled_from A0)))
                       (pade_v (identity n) (scaled_from A0)))
              (ew Cadd (pade_u (identity n) (scaled_from A0))
                       (pade_v (identity n) (scaled_from A0)))
              HU HU Hrun) as [(x & -> & Hx)|[->| ->]].
  - left. now exists x.
  - right. now left.
  - right. now right.
Qed.

(** C5, as stated, fails: a non-square input without entries is accepted. *)
Lemma expm_nonsquare_empty_accepted :
  shape (zeros [0; 3] float64) = [0; 3] /\
  outcome (expm (zeros [0; 3] float64)) = Ok (mk_ndarray float64 [0; 0] []) /\
  outcome (cosm (zeros [0; 3] float64)) = Ok (mk_ndarray float64 [0; 0] []) /\
  outcome (sinm (zeros [0; 3] float64)) = Ok (mk_ndarray float64 [0; 0] []).
Proof. repeat split. Qed.

(** C5, amended: a non-square r-by-c input with at least one row and at
    least two columns makes [expm], [cosm] and [sinm] fail with a ValueError;
    it is raised by the first array operation whose shapes do not fit, the
    subtraction [a - eye(r)*mu] (no call is logged after [eye]) or, for a
    single row, the product [A @ A] (the norm and that product are logged),
    after [diag], [sum] and [eye] have been called.  The other non-square
    inputs are not refused: one without entries gives the 0-by-0 matrix, and
    a single column of r >= 2 entries is broadcast against [eye(r)], so that
    [expm] returns an r-by-r matrix unless the solve finds its system
    singular or the exponential of line 124 overflows. *)
Theorem nonsquare_rejected (a : ndarray) (r c : nat) :
  shape a = [r; c] -> r <> c ->
  (1 <= r -> 2 <= c ->
   exists t msg,
     t = (if r =? 1 then [call_norm; call_matmul] else []) /\
     expm a = (call_diag :: call_sum :: call_eye :: t, Raise (ValueError msg)) /\
     cosm a = (call_diag :: call_sum :: call_eye :: t, Raise (ValueError msg)) /\
     sinm a = (call_diag :: call_sum :: call_eye :: t, Raise (ValueError msg))) /\
  (r = 0 \/ c = 0 -> expm a = ([], Ok (mk_ndarray (dtype a) [0; 0] []))) /\
  (2 <= r -> c = 1 ->
   (exists x, outcome (expm a) = Ok x /\ shape x = [r; r]) \/
   outcome (expm a) = Raise overflow_error \/
   outcome (expm a) = Raise singular_error).
Proof.
  intros Ha Hne. split; [|split].
  - intros Hr Hc.
    assert (Hi : forall z, expm (ewl Cmul (py_complex z) a)
                           = (nonsquare_calls r, Raise (nonsquare_error r))).
    { intros z. now apply (@expm_nonsquare _ r c). }
    assert (Hcos : cosm a = (nonsquare_calls r, Raise (nonsquare_error r))).
    { unfold cosm, multiply, add, binary.
      destruct (iscomplexobj a); rewrite !bind_coerce;
        rewrite ufunc_scalar_l by reflexivity; rewrite !bind_ret, Hi; reflexivity. }
    assert (Hsin : sinm a = (nonsquare_calls r, Raise (nonsquare_error r))).
    { unfold sinm, multiply, subtract, binary.
      destruct (iscomplexobj a); rewrite !bind_coerce;
        rewrite ufunc_scalar_l by reflexivity; rewrite !bind_ret, Hi; reflexivity. }
    rewrite Hcos, Hsin, (expm_nonsquare _ Ha Hr Hc Hne).
    unfold nonsquare_calls, nonsquare_error, matmul_error, broadcast_error.
    destruct (r =? 1); eexists; eexists; repeat split.
  - intros Hz. apply expm_size_0. unfold size. rewrite Ha. simpl.
    destruct Hz; subst; lia.
  - intros Hr ->. now apply expm_column.
Qed.

Lemma nonsquare_rejected_witness :
  (exists t msg,
     expm (zeros [2; 3] float64)
     = (call_diag :: call_sum :: call_eye :: t, Raise (ValueError msg))) /\
  expm (zeros [0; 3] complex128) = ([], Ok (mk_ndarray complex128 [0; 0] [])) /\
  ((exists x, outcome (expm (zeros [2; 1] float64)) = Ok x /\ shape x = [2; 2]) \/
   outcome (expm (zeros [2; 1] float64)) = Raise overflow_error \/
   outcome (expm (zeros [2; 1] float64)) = Raise singular_error).
Proof.
  split; [|split].
  - destruct (@nonsquare_rejected (zeros [2; 3] float64) 2 3 eq_refl) as (H & _);
      [lia|].
    destruct H as (t & msg & _ & H & _); [lia|lia|].
    exists t, msg. exact H.
  - destruct (@nonsquare_rejected (zeros [0; 3] complex128) 0 3 eq_refl) as (_ & H & _);
      [lia|].
    apply H. now left.
  - destruct (@nonsquare_rejected (zeros [2; 1] float64) 2 1 eq_refl) as (_ & _ & H);
      [lia|].
    apply H; [lia|reflexivity].
Defined.

(** ** Shape and scalar field of the result of [expm] *)

Lemma dtype_pade a n :
  dtype (pade_u (identity n) (scaled a n)) = dtype a /\
  dtype (pade_v (identity n) (scaled a n)) = dtype a.
Proof.
  unfold pade_u, pade_v, pade_u1, pade_u2, pade_v1, pade_v2, scaled, scaled_from, shifted,
    trace_mean, identity.
  cbn [dtype ew ewl ewr mm matrix smat scalar coef py_int py_float pow2].
  destruct (dtype a); split; reflexivity.
Qed.

Lemma expm_result a n t x :
  shape a = [n; n] -> expm a = (t, Ok x) ->
  shape x = [n; n] /\ dtype x = dtype a.
Proof.
  intros Ha Hx. destruct n as [|n].
  - rewrite expm_size_0 in Hx by (unfold size; now rewrite Ha).
    injection Hx as _ <-. now split.
  - rewrite (@expm_run a (S n) Ha) in Hx by lia. cbn zeta in Hx.
    destruct (dtype_pade a (S n)) as [Du Dv].
    set (U := pade_u (identity (S n)) (scaled a (S n))) in *.
    set (V := pade_v (identity (S n)) (scaled a (S n))) in *.
    assert (HU : shape U = [S n; S n]).
    { exact (proj1 (@pade13_shapes_from (scaled a (S n)) (S n) Ha)). }
    assert (HV : shape V = [S n; S n]).
    { exact (proj2 (@pade13_shapes_from (scaled a (S n)) (S n) Ha)). }
    assert (HP : shape (ew Cadd (neg U) V) = [S n; S n]) by exact HU.
    assert (HQ : shape (ew Cadd U V) = [S n; S n]) by exact HU.
    destruct (outcome (solve_ (ew Cadd (neg U) V) (ew Cadd U V))) as [r13|e] eqn:Hr.
    + destruct (@solve_unique _ _ (S n) r13 HP HQ Hr) as [(_ & Hs & Hd & _) _].
      rewrite HQ in Hs. cbn [ew neg dtype] in Hd. rewrite Du, Dv, !promote_same in Hd.
      assert (Hso : solve_ (ew Cadd (neg U) V) (ew Cadd U V)
                    = after [call_solve] (ret r13)).
      { unfold outcome in Hr. unfold solve_, calling in *. cbn [snd] in Hr.
        now rewrite Hr. }
      rewrite Hso, bind_after, bind_ret in Hx.
      unfold squared_back in Hx.
      destruct (@iter_mm_shape (Z.to_nat (scale_exponent (one_norm (shifted a (S n)))))
                  r13 (S n) Hs) as [Hys Hyd].
      assert (Hmu : iscomplexobj (trace_mean a (S n)) = is_complex (dtype a)).
      { unfold iscomplexobj, trace_mean. cbn [ew dtype scalar py_int py_float].
        now rewrite promote_float64_r. }
      destruct (exp_fits_dec (trace_mean a (S n))) as [Hf|Hf].
      * rewrite (@squared_back_exp _ _ r13 (S n) Hs Hf) in Hx.
        unfold after in Hx. cbn [fst snd] in Hx. injection Hx as _ <-.
        cbn [ewr shape dtype]. split; [exact Hys|].
        rewrite Hyd, Hd. unfold exp_factor. rewrite Hmu.
        now destruct (dtype a).
      * rewrite (@squared_back_overflow _ _ r13 (S n) Hs Hf) in Hx.
        discriminate Hx.
    + exfalso. unfold outcome in Hr. unfold solve_, calling in *. cbn [snd] in Hr.
      rewrite Hr in Hx. discriminate Hx.
Qed.

(** ** Matrix cosine and sine *)

Lemma get2_real x i j : get2 (real x) i j = RtoC (Re (get2 x i j)).
Proof.
  unfold get2, ncols, flat, real. cbn [shape data].
  change C0 with ((fun z => RtoC (Re z)) C0) at 1. apply map_nth.
Qed.

Lemma get2_imag x i j : get2 (imag x) i j = RtoC (Im (get2 x i j)).
Proof.
  unfold get2, ncols, flat, imag. cbn [shape data].
  change C0 with ((fun z => RtoC (Im z)) C0) at 1. apply map_nth.
Qed.

(** C6: on a square complex input [cosm] is 0.5 (expm(i a) + expm(-i a)) and
    [sinm] is -0.5 (expm(i a) - expm(-i a)); on a square real input they
    are the real and the imaginary part of expm(i a); in both cases the
    result has the scalar field of the input. *)
Theorem trig_from_exp (a : ndarray) (n : nat) :
  shape a = [n; n] ->
  let ia := ewl Cmul (py_complex Ci) a in
  let mia := ewl Cmul (py_complex (Copp Ci)) a in
  (dtype a = complex128 ->
   forall t1 t2 e1 e2,
     expm ia = (t1, Ok e1) -> expm mia = (t2, Ok e2) ->
     exists c s,
       cosm a = (t1 ++ t2, Ok c) /\ sinm a = (t1 ++ t2, Ok s) /\
       dtype c = dtype a /\ dtype s = dtype a /\
       shape c = [n; n] /\ shape s = [n; n] /\
       forall i j, i < n -> j < n ->
         get2 c i j = Cmul (RtoC 0.5) (Cadd (get2 e1 i j) (get2 e2 i j)) /\
         get2 s i j = Cmul (RtoC (-0.5)) (Csub (get2 e1 i j) (get2 e2 i j))) /\
  (dtype a = float64 ->
   forall t1 e1,
     expm ia = (t1, Ok e1) ->
     exists c s,
       cosm a = (t1, Ok c) /\ sinm a = (t1, Ok s) /\
       dtype c = dtype a /\ dtype s = dtype a /\
       shape c = [n; n] /\ shape s = [n; n] /\
       forall i j, i < n -> j < n ->
         get2 c i j = RtoC (Re (get2 e1 i j)) /\
         get2 s i j = RtoC (Im (get2 e1 i j))).
Proof.
  intros Ha ia mia.
  assert (Hia : shape ia = [n; n]) by exact Ha.
  assert (Hmia : shape mia = [n; n]) by exact Ha.
  split.
  - intros Da t1 t2 e1 e2 H1 H2.
    destruct (@expm_result ia n t1 e1 Hia H1) as [S1 D1].
    destruct (@expm_result mia n t2 e2 Hmia H2) as [S2 D2].
    exists (ewl Cmul (py_float 0.5) (ew Cadd e1 e2)),
           (ewl Cmul (py_float (-0.5)) (ew Csub e1 e2)).
    assert (Hcx : iscomplexobj a = true) by (unfold iscomplexobj; now rewrite Da).
    split; [|split].
    + unfold cosm, multiply, add, binary. rewrite Hcx, !bind_coerce.
      rewrite !ufunc_scalar_l by reflexivity. rewrite !bind_ret.
      fold ia. fold mia. rewrite H1, bind_ok_after, H2, bind_after, bind_ok_after.
      rewrite ufunc_same by congruence. rewrite bind_after, !bind_ret.
      rewrite ufunc_scalar_l by reflexivity.
      unfold after, ret. cbn [fst snd]. now rewrite app_nil_r.
    + unfold sinm, multiply, subtract, binary. rewrite Hcx, !bind_coerce.
      rewrite !ufunc_scalar_l by reflexivity. rewrite !bind_ret.
      fold ia. fold mia. rewrite H1, bind_ok_after, H2, bind_after, bind_ok_after.
      rewrite ufunc_same by congruence. rewrite bind_after, !bind_ret.
      rewrite ufunc_scalar_l by reflexivity.
      unfold after, ret. cbn [fst snd]. now rewrite app_nil_r.
    + cbn [ewl ew dtype shape py_float scalar]. rewrite D1, D2, Da.
      cbn [ia mia ewl dtype py_complex scalar promote].
      repeat split; trivial.
      * rewrite (@get2_ewl _ _ _ n n i j) by (try assumption; exact S1).
        now rewrite (@get2_ew _ _ _ n n i j).
      * rewrite (@get2_ewl _ _ _ n n i j) by (try assumption; exact S1).
        now rewrite (@get2_ew _ _ _ n n i j).
  - intros Da t1 e1 H1.
    destruct (@expm_result ia n t1 e1 Hia H1) as [S1 D1].
    exists (real e1), (imag e1).
    assert (Hcx : iscomplexobj a = false) by (unfold iscomplexobj; now rewrite Da).
    split; [|split].
    + unfold cosm, multiply, binary. rewrite Hcx, !bind_coerce.
      rewrite ufunc_scalar_l by reflexivity. rewrite !bind_ret.
      fold ia. rewrite H1, bind_ok_after.
      unfold after, ret. cbn [fst snd]. now rewrite app_nil_r.
    + unfold sinm, multiply, binary. rewrite Hcx, !bind_coerce.
      rewrite ufunc_scalar_l by reflexivity. rewrite !bind_ret.
      fold ia. rewrite H1, bind_ok_after.
      unfold after, ret. cbn [fst snd]. now rewrite app_nil_r.
    + cbn [real imag dtype shape]. rewrite Da.
      repeat split; trivial; [apply get2_real|apply get2_imag].
Qed.

Lemma trig_from_exp_witness :
  (exists c s,
     cosm (smat float64 1 C0)
     = (expm_calls ++ [call_solve; call_matmul; call_exp], Ok c) /\
     sinm (smat float64 1 C0)
     = (expm_calls ++ [call_solve; call_matmul; call_exp], Ok s) /\
     dtype c = float64 /\ dtype s = float64) /\
  (exists c s,
     cosm (smat complex128 1 C0)
     = ((expm_calls ++ [call_solve; call_matmul; call_exp])
        ++ (expm_calls ++ [call_solve; call_matmul; call_exp]), Ok c) /\
     sinm (smat complex128 1 C0)
     = ((expm_calls ++ [call_solve; call_matmul; call_exp])
        ++ (expm_calls ++ [call_solve; call_matmul; call_exp]), Ok s) /\
     dtype c = complex128 /\ dtype s = complex128).
Proof.
  assert (H : forall d z, expm (ewl Cmul (py_complex z) (smat d 1 C0))
              = (expm_calls ++ [call_solve; call_matmul; call_exp],
                 Ok (smat complex128 1 C1))).
  { intros d z. rewrite ewl_smat by apply Cmul_0_r. rewrite Cmul_0_r.
    now apply expm_zero_run. }
  split.
  - destruct (proj2 (@trig_from_exp (smat float64 1 C0) 1 eq_refl) eq_refl _ _
                (H float64 Ci))
      as (c & s & Hc & Hs & Dc & Ds & _).
    exists c, s. repeat split; assumption.
  - destruct (proj1 (@trig_from_exp (smat complex128 1 C0) 1 eq_refl) eq_refl _ _ _ _
                (H complex128 Ci) (H complex128 (Copp Ci)))
      as (c & s & Hc & Hs & Dc & Ds & _).
    exists c, s. repeat split; assumption.
Defined.

(** * Further properties *)

(** ** [expm] of a scalar matrix *)

Lemma Csum_const z : forall l : list nat,
  Csum (map (fun _ => z) l) = (INR (length l) * Re z, INR (length l) * Im z)%R.
Proof.
  unfold Csum. induction l as [|x l IH].
  - cbn [map fold_right length INR]. unfold C0, RtoC. f_equal; ring.
  - cbn [map fold_right length]. rewrite IH, S_INR. unfold Cadd, Re, Im.
    cbn [fst snd]. f_equal; ring.
Qed.

Lemma trace_mean_scalar d n z :
  1 <= n -> trace_mean (smat d n z) n = scalar d z.
Proof.
  intros Hn. unfold trace_mean, ew, scalar, py_int, py_float, size.
  cbn [shape dtype prod fold_right tab seq map flat data nth].
  rewrite promote_float64_r. do 2 f_equal.
  erewrite tab_ext with (h := fun _ => z).
  - unfold tab. rewrite Csum_const, length_seq, INR_IZR_INZ.
    assert (H0 : IZR (Z.of_nat n) <> 0%R).
    { apply not_0_IZR. lia. }
    destruct z as [x y]. unfold Cdiv, RtoC, Re, Im. cbn [fst snd].
    unfold flat, scalar. cbn [data nth fst snd]. f_equal; field; assumption.
  - intros i Hi. rewrite get2_smat by assumption. now rewrite Nat.eqb_refl.
Qed.

Lemma shifted_scalar d n z : 1 <= n -> shifted (smat d n z) n = smat d n C0.
Proof.
  intros Hn. unfold shifted, identity. rewrite (trace_mean_scalar _ _ Hn).
  rewrite ewr_smat by apply Cmul_0_l. rewrite ew_smat by apply Csub_0_r.
  cbn [scalar dtype flat data nth]. rewrite Cmul_1_l.
  replace (Csub z z) with C0
    by (destruct z; unfold Csub, C0, RtoC, Re, Im; cbn [fst snd]; f_equal; ring).
  now destruct d.
Qed.

Lemma expm_scalar_unfold d n z :
  1 <= n ->
  expm (smat d n z)
  = after (expm_calls ++ [call_solve])
      (squared_back_from (scalar d z) (smat d n C0) (smat d n C1)).
Proof.
  intros Hn. rewrite (@expm_run (smat d n z) n eq_refl Hn). cbn zeta.
  unfold scaled, squared_back. rewrite (shifted_scalar _ _ Hn).
  rewrite scaled_from_zero, pade_u_zero, pade_v_zero.
  rewrite neg_smat, !ew_smat by apply Cadd_0_l.
  autorewrite with cplx. rewrite promote_same.
  rewrite (solve_smat _ _ b0_nonzero), bind_after, bind_ret.
  now rewrite (trace_mean_scalar _ _ Hn), after_after.
Qed.

Lemma one_squaring_zero d n : Z.to_nat (scale_exponent (one_norm (smat d n C0))) = 1.
Proof.
  rewrite one_norm_zero.
  now rewrite scale_exponent_unscaled by (pose proof th13_pos; lra).
Qed.

Lemma expm_scalar_run d n z :
  1 <= n -> exp_fits (scalar d z) ->
  expm (smat d n z)
  = (expm_calls ++ [call_solve; call_matmul; call_exp],
     Ok (smat d n (if is_complex d then Cexp z else RtoC (exp (Re z))))).
Proof.
  intros Hn Hf. rewrite (expm_scalar_unfold _ _ Hn).
  rewrite (@squared_back_exp _ _ (smat d n C1) n eq_refl Hf).
  rewrite one_squaring_zero. cbn [Nat.iter nat_rect repeat]. rewrite mm_smat.
  rewrite ewr_smat by apply Cmul_0_l.
  unfold exp_factor, iscomplexobj. cbn [scalar dtype flat data nth].
  destruct d; cbn [is_complex promote dtype py_float py_complex scalar flat data nth];
    autorewrite with cplx; reflexivity.
Qed.

Lemma expm_scalar_overflow d n z :
  1 <= n -> ~ exp_fits (scalar d z) ->
  expm (smat d n z)
  = (expm_calls ++ [call_solve; call_matmul; call_exp], Raise overflow_error).
Proof.
  intros Hn Hf. rewrite (expm_scalar_unfold _ _ Hn).
  rewrite (@squared_back_overflow _ _ (smat d n C1) n eq_refl Hf).
  now rewrite one_squaring_zero.
Qed.

Lemma in_range_exp x : in_range (exp x) <-> (exp x <= dbl_max)%R.
Proof.
  unfold in_range. rewrite Rabs_pos_eq by (left; apply exp_pos). reflexivity.
Qed.

Lemma exp_pow x n : (exp x ^ n = exp (INR n * x))%R.
Proof.
  induction n as [|n IH].
  - cbn [pow INR]. now rewrite Rmult_0_l, exp_0.
  - cbn [pow]. rewrite IH, S_INR, <- exp_plus. f_equal. ring.
Qed.

(** [exp(1000)] does not fit a double: 2 exp(1/2) > 3 and
    3^2000 > 2^2000 (2^1024 - 2^971). *)
Lemma exp_1000_overflows : (dbl_max < exp 1000)%R.
Proof.
  assert (H3 : (3 <= 2 * exp (1 / 2))%R).
  { assert (H : (1 + 1 / 2 < exp (1 / 2))%R) by (apply exp_ineq1; lra). lra. }
  assert (Hp : (3 ^ 2000 <= (2 * exp (1 / 2)) ^ 2000)%R).
  { apply pow_incr. lra. }
  rewrite Rpow_mult_distr, exp_pow in Hp.
  replace (INR 2000 * (1 / 2))%R with 1000%R in Hp
    by (rewrite INR_IZR_INZ; change (IZR (Z.of_nat 2000)) with 2000%R; lra).
  rewrite !pow_IZR in Hp.
  assert (Hz : (IZR (2 ^ Z.of_nat 2000) * dbl_max < IZR (3 ^ Z.of_nat 2000))%R).
  { unfold dbl_max. rewrite <- mult_IZR. apply IZR_lt.
    apply Z.ltb_lt. vm_compute. reflexivity. }
  assert (H2 : (0 < IZR (2 ^ Z.of_nat 2000))%R).
  { apply (IZR_lt 0). apply Z.ltb_lt. vm_compute. reflexivity. }
  apply Rmult_lt_reg_l with (IZR (2 ^ Z.of_nat 2000)); [exact H2|]. lra.
Qed.

(** The 1-by-1 matrix [[1000.0]] makes [expm] raise at line 124. *)
Example expm_1000_example :
  expm (mk_ndarray float64 [1; 1] [RtoC 1000])
  = (expm_calls ++ [call_solve; call_matmul; call_exp], Raise overflow_error).
Proof.
  apply (@expm_scalar_overflow float64 1 (RtoC 1000) (le_n 1)).
  unfold exp_fits, iscomplexobj. cbn [scalar dtype is_complex flat data nth RtoC Re fst].
  rewrite in_range_exp. pose proof exp_1000_overflows. lra.
Qed.

(** X1: for n >= 1, [expm] of the scalar matrix z I is exp(z) I when exp(z)
    fits a double, and the OverflowError of line 124 otherwise: the trace
    shift removes the whole matrix, so the result is exact.  Every 1-by-1
    matrix is of this form. *)
Theorem expm_scalar_matrix (n : nat) (z : C) (x : R) :
  1 <= n ->
  (in_range (Re (Cexp z)) /\ in_range (Im (Cexp z)) ->
   outcome (expm (smat complex128 n z)) = Ok (smat complex128 n (Cexp z))) /\
  (~ (in_range (Re (Cexp z)) /\ in_range (Im (Cexp z))) ->
   outcome (expm (smat complex128 n z)) = Raise overflow_error) /\
  ((exp x <= dbl_max)%R ->
   outcome (expm (smat float64 n (RtoC x))) = Ok (smat float64 n (RtoC (exp x))) /\
   outcome (expm (mk_ndarray float64 [1; 1] [RtoC x]))
   = Ok (mk_ndarray float64 [1; 1] [RtoC (exp x)])) /\
  ((dbl_max < exp x)%R ->
   outcome (expm (smat float64 n (RtoC x))) = Raise overflow_error /\
   outcome (expm (mk_ndarray float64 [1; 1] [RtoC x])) = Raise overflow_error).
Proof.
  intros Hn.
  assert (Hx : exp_fits (scalar float64 (RtoC x)) <-> (exp x <= dbl_max)%R)
    by apply in_range_exp.
  split; [|split; [|split]].
  - intros Hf. now rewrite expm_scalar_run.
  - intros Hf. now rewrite expm_scalar_overflow.
  - intros Hf. apply Hx in Hf. split.
    + now rewrite expm_scalar_run.
    + exact (f_equal snd (@expm_scalar_run float64 1 (RtoC x) (le_n 1) Hf)).
  - intros Hf. assert (Hf' : ~ exp_fits (scalar float64 (RtoC x))).
    { intros H. apply Hx in H. lra. }
    split.
    + now rewrite expm_scalar_overflow.
    + exact (f_equal snd (@expm_scalar_overflow float64 1 (RtoC x) (le_n 1) Hf')).
Qed.

Lemma expm_scalar_matrix_witness :
  outcome (expm (mk_ndarray float64 [1; 1] [RtoC 0]))
  = Ok (mk_ndarray float64 [1; 1] [RtoC (exp 0)]) /\
  outcome (expm (mk_ndarray float64 [1; 1] [RtoC 1000])) = Raise overflow_error.
Proof.
  split.
  - apply (@expm_scalar_matrix 1 C0 0%R (le_n 1)).
    rewrite exp_0. exact dbl_max_ge_1.
  - apply (@expm_scalar_matrix 1 C0 1000%R (le_n 1)).
    exact exp_1000_overflows.
Defined.

(** ** [cosm] and [sinm] of scalar and zero matrices *)

Lemma Cexp_imaginary x :
  Cexp (Cmul (flat (py_complex Ci) 0) (RtoC x)) = (cos x, sin x).
Proof.
  unfold Cexp, Cmul, Ci, RtoC, Re, Im, flat, py_complex, scalar.
  cbn [data nth fst snd].
  replace (0 * x - 1 * 0)%R with 0%R by ring.
  replace (0 * 0 + 1 * x)%R with x by ring.
  rewrite exp_0. f_equal; ring.
Qed.

Lemma real_smat d n z : real (smat d n z) = smat float64 n (RtoC (Re z)).
Proof.
  unfold real, smat, matrix, tab. cbn [shape data]. f_equal.
  rewrite map_map. apply map_ext. intros p. now destruct (p / n =? p mod n).
Qed.

Lemma imag_smat d n z : imag (smat d n z) = smat float64 n (RtoC (Im z)).
Proof.
  unfold imag, smat, matrix, tab. cbn [shape data]. f_equal.
  rewrite map_map. apply map_ext. intros p. now destruct (p / n =? p mod n).
Qed.

Lemma times_i_smat d n z w :
  ufunc Cmul (py_complex w) (smat d n z) = ret (smat complex128 n (Cmul w z)).
Proof.
  rewrite ufunc_scalar_l by reflexivity. now rewrite ewl_smat by apply Cmul_0_r.
Qed.

(** [cmath.exp] of an imaginary number cannot overflow. *)
Lemma exp_fits_imaginary x : exp_fits (scalar complex128 (Cmul Ci (RtoC x))).
Proof.
  unfold exp_fits, iscomplexobj. cbn [scalar dtype is_complex flat data nth].
  change (Cmul Ci (RtoC x)) with (Cmul (flat (py_complex Ci) 0) (RtoC x)).
  rewrite Cexp_imaginary. cbn [Re Im fst snd].
  split; apply in_range_unit, Rabs_le; [apply COS_bound|apply SIN_bound].
Qed.

Lemma cosm_sinm_real_scalar_run n x :
  1 <= n ->
  outcome (cosm (smat float64 n (RtoC x))) = Ok (smat float64 n (RtoC (cos x))) /\
  outcome (sinm (smat float64 n (RtoC x))) = Ok (smat float64 n (RtoC (sin x))).
Proof.
  intros Hn. unfold cosm, sinm, multiply, binary.
  change (iscomplexobj (smat float64 n (RtoC x))) with false. cbv iota.
  rewrite !bind_coerce, times_i_smat, !bind_ret.
  rewrite (@expm_scalar_run complex128 n _ Hn (exp_fits_imaginary x)).
  cbn [is_complex]. rewrite !bind_ok_after, !after_ret, real_smat, imag_smat.
  change (Cmul Ci (RtoC x)) with (Cmul (flat (py_complex Ci) 0) (RtoC x)).
  rewrite Cexp_imaginary. split; reflexivity.
Qed.

(** X2: for a real number x and n >= 1, [cosm] of x I is cos(x) I and [sinm]
    of x I is sin(x) I, both real. *)
Theorem cosm_sinm_real_scalar (n : nat) (x : R) :
  1 <= n ->
  outcome (cosm (smat float64 n (RtoC x))) = Ok (smat float64 n (RtoC (cos x))) /\
  outcome (sinm (smat float64 n (RtoC x))) = Ok (smat float64 n (RtoC (sin x))).
Proof. apply cosm_sinm_real_scalar_run. Qed.

Lemma cosm_sinm_real_scalar_witness :
  outcome (cosm (smat float64 1 (RtoC PI))) = Ok (smat float64 1 (RtoC (cos PI))).
Proof. exact (proj1 (@cosm_sinm_real_scalar 1 PI (le_n 1))). Defined.

(** X3: [cosm] of the n-by-n zero matrix is the identity and [sinm] of it is
    the zero matrix, in the scalar field of the input, for every n. *)
Theorem cosm_sinm_zero_matrix (n : nat) (d : scalar_field) :
  outcome (cosm (zeros [n; n] d)) = Ok (smat d n C1) /\
  outcome (sinm (zeros [n; n] d)) = Ok (zeros [n; n] d).
Proof.
  destruct n as [|n].
  - destruct d; split; reflexivity.
  - assert (Hn : 1 <= S n) by lia. rewrite !zeros_smat. destruct d.
    + destruct (@cosm_sinm_real_scalar_run (S n) 0%R Hn) as [Hc Hs].
      rewrite cos_0 in Hc. rewrite sin_0 in Hs. split; assumption.
    + unfold cosm, sinm, multiply, add, subtract, binary.
      change (iscomplexobj (smat complex128 (S n) C0)) with true. cbv iota.
      rewrite !bind_coerce, !times_i_smat, !bind_ret, !Cmul_0_r.
      rewrite (expm_zero_run _ Hn), !bind_ok_after.
      rewrite !ufunc_same by reflexivity. rewrite !bind_after, !bind_ret.
      rewrite !ufunc_scalar_l by reflexivity. rewrite !after_after, !after_ret.
      cbn [outcome snd].
      rewrite ew_smat by apply Cadd_0_l. rewrite ew_smat by apply Csub_0_r.
      rewrite !ewl_smat by apply Cmul_0_r.
      cbn [promote dtype py_float scalar flat data nth].
      split; f_equal; f_equal; unfold Cmul, Cadd, Csub, C1, C0, RtoC, Re, Im;
        cbn [fst snd]; f_equal; lra.
Qed.

(** ** [cosm] and [sinm] at the edges *)

(** X4: an input without entries, of any shape, makes [cosm] and [sinm]
    return the 0-by-0 matrix of the input's scalar field, without a call
    into the linear algebra routines. *)
Theorem cosm_sinm_empty (a : ndarray) :
  size a = 0 ->
  cosm a = ([], Ok (mk_ndarray (dtype a) [0; 0] [])) /\
  sinm a = ([], Ok (mk_ndarray (dtype a) [0; 0] [])).
Proof.
  intros Hs.
  assert (He : forall z, expm (ewl Cmul (py_complex z) a)
                         = ret (mk_ndarray complex128 [0; 0] [])).
  { intros z. now rewrite expm_size_0. }
  unfold cosm, sinm, multiply, add, subtract, binary, iscomplexobj.
  destruct (dtype a) eqn:Da; cbn [is_complex];
    rewrite !bind_coerce; rewrite !ufunc_scalar_l by reflexivity;
    rewrite !bind_ret, !He, !bind_ret.
  - split; reflexivity.
  - rewrite !ufunc_same by reflexivity. rewrite !bind_ret.
    rewrite !ufunc_scalar_l by reflexivity. split; reflexivity.
Qed.

Lemma cosm_sinm_empty_witness :
  cosm (zeros [0; 5] complex128) = ([], Ok (mk_ndarray complex128 [0; 0] [])).
Proof. exact (proj1 (@cosm_sinm_empty (zeros [0; 5] complex128) eq_refl)). Defined.

(** X5: when the first call [expm(1j*a)] raises, [cosm] and [sinm] end with
    that exception and that call log; for a complex input the second
    exponential is never started. *)
Theorem cosm_sinm_propagate (a : ndarray) (t : list call) (e : exn) :
  expm (ewl Cmul (py_complex Ci) a) = (t, Raise e) ->
  cosm a = (t, Raise e) /\ sinm a = (t, Raise e).
Proof.
  intros He. unfold cosm, sinm, multiply, add, subtract, binary.
  destruct (iscomplexobj a); rewrite !bind_coerce;
    rewrite ufunc_scalar_l by reflexivity; rewrite !bind_ret, He;
    split; reflexivity.
Qed.

Lemma cosm_sinm_propagate_witness :
  cosm (zeros [2; 3] complex128)
  = ([call_diag; call_sum; call_eye], Raise broadcast_error).
Proof.
  apply (@cosm_sinm_propagate (zeros [2; 3] complex128)).
  apply (@expm_wide _ 2 3); [reflexivity|lia|lia|lia].
Defined.

Lemma Creal_imag z : Cadd (RtoC (Re z)) (Cmul Ci (RtoC (Im z))) = z.
Proof.
  destruct z as [x y]. unfold Cadd, Cmul, Ci, RtoC, Re, Im. cbn [fst snd].
  f_equal; ring.
Qed.

(** X6: for a real input on which [expm(1j*a)] returns e, [cosm] and [sinm]
    return the real and the imaginary part of e, so that entry by entry
    e = cosm(a) + 1j sinm(a); one exponential serves both. *)
Theorem euler_relation (a : ndarray) (t : list call) (e : ndarray) :
  dtype a = float64 ->
  expm (ewl Cmul (py_complex Ci) a) = (t, Ok e) ->
  exists c s,
    cosm a = (t, Ok c) /\ sinm a = (t, Ok s) /\
    shape c = shape e /\ shape s = shape e /\
    forall i j, get2 e i j = Cadd (get2 c i j) (Cmul Ci (get2 s i j)).
Proof.
  intros Da He. exists (real e), (imag e).
  assert (Hcx : iscomplexobj a = false) by (unfold iscomplexobj; now rewrite Da).
  unfold cosm, sinm, multiply, binary. rewrite Hcx, !bind_coerce.
  rewrite ufunc_scalar_l by reflexivity. rewrite !bind_ret, He, !bind_ok_after.
  rewrite !after_ret. repeat split.
  intros i j. now rewrite get2_real, get2_imag, Creal_imag.
Qed.

Lemma euler_relation_witness :
  exists c s,
    cosm (smat float64 1 C0)
    = (expm_calls ++ [call_solve; call_matmul; call_exp], Ok c) /\
    sinm (smat float64 1 C0)
    = (expm_calls ++ [call_solve; call_matmul; call_exp], Ok s).
Proof.
  assert (H : expm (ewl Cmul (py_complex Ci) (smat float64 1 C0))
              = (expm_calls ++ [call_solve; call_matmul; call_exp],
                 Ok (smat complex128 1 C1))).
  { rewrite ewl_smat by apply Cmul_0_r. rewrite Cmul_0_r.
    now apply expm_zero_run. }
  destruct (@euler_relation (smat float64 1 C0) _ _ eq_refl H)
    as (c & s & Hc & Hs & _).
  exists c, s. split; assumption.
Defined.

(** ** The result of [expm] *)

Lemma wf_ewr f y e : wf (ewr f y e).
Proof. unfold wf, ewr, size. cbn [data shape]. apply length_tab. Qed.

(** X7: whenever [expm] returns on an n-by-n input, the result is an n-by-n
    matrix holding n*n entries.  Its dtype is the input's when n = 0 (line
    89) and otherwise the promotion of the input's dtype with float64, the
    dtype of [eye(n)] at line 95: a float64 input gives a float64 result and
    a complex128 input a complex128 result. *)
Theorem expm_returns_square (a : ndarray) (n : nat) (t : list call) (x : ndarray) :
  shape a = [n; n] -> expm a = (t, Ok x) ->
  shape x = [n; n] /\
  dtype x = (if n =? 0 then dtype a else promote float64 (dtype a)) /\
  length (data x) = n * n.
Proof.
  intros Ha Hx. destruct (@expm_result a n t x Ha Hx) as [Hs Hd].
  split; [exact Hs|].
  split; [rewrite promote_float64_l, Hd; now destruct (n =? 0)|].
  assert (Hw : wf x).
  { destruct n as [|n].
    - rewrite expm_size_0 in Hx by (unfold size; now rewrite Ha).
      injection Hx as _ <-. reflexivity.
    - rewrite (@expm_run a (S n) Ha) in Hx by lia. cbn zeta in Hx.
      destruct (@pade13_shapes_from (scaled a (S n)) (S n) Ha) as [HU _].
      destruct (@solve_outcome
                  (ew Cadd (neg (pade_u (identity (S n)) (scaled a (S n))))
                           (pade_v (identity (S n)) (scaled a (S n))))
                  (ew Cadd (pade_u (identity (S n)) (scaled a (S n)))
                           (pade_v (identity (S n)) (scaled a (S n))))
                  (S n) HU HU) as [(r13 & Hr & (_ & Hsh & _))|Hr];
        rewrite Hr in Hx.
      + assert (Hsh' : shape r13 = [S n; S n]) by (rewrite Hsh; exact HU).
        rewrite bind_after, bind_ret in Hx. unfold squared_back in Hx.
        destruct (exp_fits_dec (trace_mean a (S n))) as [Hf|Hf].
        * rewrite (@squared_back_exp _ _ r13 (S n) Hsh' Hf) in Hx.
          injection Hx as _ <-. apply wf_ewr.
        * rewrite (@squared_back_overflow _ _ r13 (S n) Hsh' Hf) in Hx.
          discriminate Hx.
      + rewrite bind_after, after_after in Hx. discriminate Hx. }
  unfold wf, size in Hw. rewrite Hs in Hw. cbn [prod fold_right] in Hw. lia.
Qed.

Lemma expm_returns_square_witness :
  shape (smat float64 3 C1) = [3; 3] /\
  dtype (smat float64 3 C1) = promote float64 float64 /\
  length (data (smat float64 3 C1)) = 3 * 3.
Proof.
  apply (@expm_returns_square (smat float64 3 C0) 3
           (expm_calls ++ [call_solve; call_matmul; call_exp]) (smat float64 3 C1)).
  - reflexivity.
  - apply expm_zero_run. lia.
Defined.

(** ** More on [khatri_rao] *)

Lemma khatri_rao_entry a b n1 n2 k c i j l :
  shape a = [n1; k] -> shape b = [n2; k] ->
  khatri_rao a b = ([], Ok c) ->
  i < n1 -> j < n2 -> l < k ->
  get2 c (i * n2 + j) l = Cmul (get2 a i l) (get2 b j l).
Proof.
  intros Ha Hb Hc Hi Hj Hl. rewrite (khatri_rao_run _ _ Ha Hb) in Hc by lia.
  injection Hc as <-.
  unfold get2 at 1, ncols, flat at 1. cbn [shape data nth].
  assert (Hij : i * n2 + j + 1 <= n1 * n2) by nia.
  assert (Hp : (i * n2 + j) * k + l < n1 * n2 * k).
  { apply Nat.lt_le_trans with ((i * n2 + j + 1) * k); [lia|].
    now apply Nat.mul_le_mono_r. }
  rewrite nth_tab by exact Hp.
  destruct (split_index i Hj Hl) as (E1 & E2 & E3 & E4).
  cbn zeta in *. rewrite E2 in E4. rewrite E1, E3, E2, E4.
  unfold get2, ncols. now rewrite Ha, Hb.
Qed.

Lemma Cmul_comm z w : Cmul z w = Cmul w z.
Proof. unfold Cmul. f_equal; ring. Qed.

Lemma promote_comm d1 d2 : promote d1 d2 = promote d2 d1.
Proof. now destruct d1, d2. Qed.

(** X8: for inputs with k >= 1 columns, exchanging the two arguments of
    [khatri_rao] keeps shape and dtype and permutes the rows: row j*n1 + i
    of khatri_rao(b, a) is row i*n2 + j of khatri_rao(a, b). *)
Theorem khatri_rao_swap (a b : ndarray) (n1 n2 k : nat) :
  shape a = [n1; k] -> shape b = [n2; k] -> 1 <= k ->
  exists c c',
    khatri_rao a b = ([], Ok c) /\ khatri_rao b a = ([], Ok c') /\
    shape c = [n1 * n2; k] /\ shape c' = [n2 * n1; k] /\
    dtype c' = dtype c /\
    forall i j l, i < n1 -> j < n2 -> l < k ->
      get2 c' (j * n1 + i) l = get2 c (i * n2 + j) l.
Proof.
  intros Ha Hb Hk.
  pose proof (khatri_rao_run _ _ Ha Hb Hk) as Hab.
  pose proof (khatri_rao_run _ _ Hb Ha Hk) as Hba.
  eexists. eexists. split; [exact Hab|]. split; [exact Hba|].
  split; [reflexivity|]. split; [reflexivity|].
  split; [apply promote_comm|].
  intros i j l Hi Hj Hl.
  rewrite (khatri_rao_entry _ _ Ha Hb Hab Hi Hj Hl).
  rewrite (khatri_rao_entry _ _ Hb Ha Hba Hj Hi Hl).
  apply Cmul_comm.
Qed.

Lemma khatri_rao_swap_witness :
  exists c c',
    khatri_rao ex_a ex_b = ([], Ok c) /\ khatri_rao ex_b ex_a = ([], Ok c') /\
    shape c = [2 * 2; 2] /\ shape c' = [2 * 2; 2] /\
    dtype c' = dtype c /\
    forall i j l, i < 2 -> j < 2 -> l < 2 ->
      get2 c' (j * 2 + i) l = get2 c (i * 2 + j) l.
Proof.
  exact (@khatri_rao_swap ex_a ex_b 2 2 2 eq_refl eq_refl (le_S 1 1 (le_n 1))).
Defined.

Lemma small_index p n k :
  p < n * k ->
  p / k < n /\ (p / k) mod n = p / k /\ p / k * k + p mod k = p.
Proof.
  intros Hp. assert (Hk : k <> 0) by (intros ->; lia).
  assert (H1 : p / k < n) by (apply Nat.Div0.div_lt_upper_bound; lia).
  split; [exact H1|]. split; [now apply Nat.mod_small|].
  pose proof (Nat.div_mod_eq p k). lia.
Qed.

Lemma khatri_rao_ones_run (m : ndarray) (n k : nat) :
  shape m = [n; k] -> wf m -> 1 <= k ->
  khatri_rao (ones_row k) m = ([], Ok m) /\
  khatri_rao m (ones_row k) = ([], Ok m).
Proof.
  intros Hm Hw Hk1.
  assert (Hl : length (data m) = n * k).
  { unfold wf, size in Hw. rewrite Hm in Hw. cbn [prod fold_right] in Hw. lia. }
  assert (Hone : forall q, q < k -> flat (ones_row k) q = C1).
  { intros q Hq. unfold flat, ones_row. cbn [data]. now rewrite nth_tab. }
  destruct m as [d s l]. cbn [shape data dtype] in *. subst s.
  split.
  - rewrite (@khatri_rao_run (ones_row k) (mk_ndarray d [n; k] l) 1 n k eq_refl eq_refl Hk1).
    unfold ret. do 2 f_equal. cbn [dtype ones_row].
    rewrite promote_float64_l, Nat.mul_1_l. f_equal.
    transitivity (tab (length l) (fun p => nth p l C0)); [|apply tab_data].
    rewrite Hl. apply tab_ext. intros p Hp.
    destruct (@small_index p n k Hp) as (H1 & H2 & H3).
    assert (Hk : k <> 0) by (intros ->; lia).
    rewrite (Nat.div_small (p / k) n) by exact H1. cbn [Nat.mul Nat.add].
    rewrite Hone by now apply Nat.mod_upper_bound.
    rewrite H2, H3. unfold flat. cbn [data]. apply Cmul_1_l.
  - rewrite (@khatri_rao_run (mk_ndarray d [n; k] l) (ones_row k) n 1 k eq_refl eq_refl Hk1).
    unfold ret. do 2 f_equal. cbn [dtype ones_row].
    rewrite promote_float64_r, !Nat.mul_1_r. f_equal.
    transitivity (tab (length l) (fun p => nth p l C0)); [|apply tab_data].
    rewrite Hl. apply tab_ext. intros p Hp.
    destruct (@small_index p n k Hp) as (H1 & H2 & H3).
    assert (Hk : k <> 0) by (intros ->; lia).
    rewrite Nat.div_1_r, Nat.mod_1_r. cbn [Nat.mul Nat.add].
    rewrite Hone by now apply Nat.mod_upper_bound.
    rewrite H3. unfold flat. cbn [data]. apply Cmul_1_r.
Qed.

(** X9: a row of ones is a unit of [khatri_rao] on either side: for a
    well-formed n-by-k matrix [m] with k >= 1, khatri_rao(ones((1,k)), m)
    and khatri_rao(m, ones((1,k))) both return the shape and the entries of
    [m]; the dtype is that of [m] promoted with the float64 of the ones, so
    a float64 or complex128 [m] comes back as it is. *)
Theorem khatri_rao_ones (m : ndarray) (n k : nat) :
  shape m = [n; k] -> wf m -> 1 <= k ->
  let m' := mk_ndarray (promote float64 (dtype m)) (shape m) (data m) in
  khatri_rao (ones_row k) m = ([], Ok m') /\
  khatri_rao m (ones_row k) = ([], Ok m').
Proof.
  intros Hm Hw Hk1 m'.
  assert (Em : m' = m).
  { unfold m'. rewrite promote_float64_l. now destruct m. }
  rewrite Em. exact (khatri_rao_ones_run Hm Hw Hk1).
Qed.

Lemma khatri_rao_ones_witness :
  khatri_rao (ones_row 2) ex_b = ([], Ok ex_b) /\
  khatri_rao ex_b (ones_row 2) = ([], Ok ex_b).
Proof.
  exact (@khatri_rao_ones ex_b 2 2 eq_refl eq_refl (le_S 1 1 (le_n 1))).
Defined.

(** ** The coefficient table *)

(** X10: the table [b] holds the 14 coefficients of the [13/13] Pade
    approximant: b[13] = 1 and b[k+1] (k+1) (26-k) = b[k] (13-k) for k < 13,
    that is b[k] = (26-k)! / (k! (13-k)!); all of them are positive. *)
Theorem pade_table :
  length b = 14 /\
  nth 13 b 0%R = 1%R /\
  (forall k, k < 13 ->
     (nth (S k) b 0 * INR (S k) * INR (26 - k) = nth k b 0 * INR (13 - k))%R) /\
  (forall k, k < 14 -> (0 < nth k b 0)%R).
Proof.
  split; [reflexivity|]. split; [reflexivity|]. split.
  - intros k Hk.
    do 13 (destruct k as [|k]; [cbn [nth b Nat.sub INR]; lra|]). lia.
  - intros k Hk.
    do 14 (destruct k as [|k]; [cbn [nth b]; lra|]). lia.
Qed.

Lemma pade_table_witness :
  (nth 1 b 0 * INR 1 * INR (26 - 0) = nth 0 b 0 * INR (13 - 0))%R.
Proof. apply (proj1 (proj2 (proj2 pade_table)) 0). lia. Defined.

(** ** The scaling step *)









(** ** The trace shift *)

Lemma Csum_sub_const (f : nat -> C) c l :
  Csum (map (fun i => Csub (f i) c) l)
  = (Re (Csum (map f l)) - INR (length l) * Re c,
     Im (Csum (map f l)) - INR (length l) * Im c)%R.
Proof.
  unfold Csum. induction l as [|x l IH].
  - cbn [map fold_right length INR]. unfold C0, RtoC, Re, Im. cbn [fst snd].
    f_equal; ring.
  - cbn [map fold_right length]. rewrite IH, S_INR.
    unfold Cadd, Csub, Re, Im. cbn [fst snd]. f_equal; ring.
Qed.

Lemma flat_trace_mean a n :
  flat (trace_mean a n) 0
  = Cdiv (Csum (tab n (fun i => get2 a i i))) (RtoC (IZR (Z.of_nat n))).
Proof. reflexivity. Qed.

Lemma get2_shifted a n i j :
  shape a = [n; n] -> i < n -> j < n ->
  get2 (shifted a n) i j
  = Csub (get2 a i j)
         (Cmul (if i =? j then C1 else C0) (flat (trace_mean a n) 0)).
Proof.
  intros Ha Hi Hj. unfold shifted.
  rewrite (@get2_ew _ _ _ n n i j) by (try assumption; reflexivity).
  rewrite (@get2_ewr _ _ _ n n i j) by (try assumption; reflexivity).
  unfold identity. now rewrite get2_smat.
Qed.

Lemma trace_shifted a n :
  shape a = [n; n] -> 1 <= n ->
  Csum (tab n (fun i => get2 (shifted a n) i i)) = C0.
Proof.
  intros Ha Hn.
  erewrite tab_ext with
    (h := fun i => Csub (get2 a i i) (Cmul C1 (flat (trace_mean a n) 0))).
  2:{ intros i Hi. rewrite get2_shifted by assumption. now rewrite Nat.eqb_refl. }
  unfold tab. rewrite Csum_sub_const, length_seq, Cmul_1_l, flat_trace_mean.
  fold (tab n (fun i => get2 a i i)).
  destruct (Csum (tab n (fun i => get2 a i i))) as [x y].
  rewrite INR_IZR_INZ.
  assert (H0 : IZR (Z.of_nat n) <> 0%R) by (apply not_0_IZR; lia).
  unfold Cdiv, C0, RtoC, Re, Im. cbn [fst snd]. f_equal; field; assumption.
Qed.

(** X12: in exact arithmetic the matrix A0 = a - mu I that [expm] builds at
    lines 94-95 on a square input, and on which all later steps work, has
    trace zero: the library's own [diag(A0).sum()] is 0, so that shifting a
    second time would subtract nothing. *)
Theorem shifted_trace_zero (a : ndarray) (n : nat) :
  shape a = [n; n] -> 1 <= n ->
  let mu := trace_mean a n in
  let A0 := shifted a n in
  let A := scaled_from A0 in
  let E := identity n in
  true_divide (sum (diag a)) (py_int (Z.of_nat n)) = ([call_diag; call_sum], Ok mu) /\
  subtract a (multiply (eye n) mu) = ([call_eye], Ok A0) /\
  expm a
  = after expm_calls
      (bind (solve_ (ew Cadd (neg (pade_u E A)) (pade_v E A))
                    (ew Cadd (pade_u E A) (pade_v E A)))
            (squared_back_from mu A0)) /\
  sum (diag A0) = ([call_diag; call_sum], Ok (scalar (dtype A0) C0)) /\
  true_divide (sum (diag A0)) (py_int (Z.of_nat n))
  = ([call_diag; call_sum], Ok (scalar (dtype A0) C0)).
Proof.
  intros Ha Hn mu A0 A E.
  assert (HA0 : shape A0 = [n; n]) by exact Ha.
  assert (Hsum : sum (diag A0) = ([call_diag; call_sum], Ok (scalar (dtype A0) C0))).
  { unfold sum. rewrite (diag_rect _ HA0), Nat.min_id.
    rewrite bind_after, bind_ret, calling_ok, after_after, after_ret.
    cbn [dtype data app].
    unfold A0 at 2. now rewrite (@trace_shifted a n Ha Hn). }
  split; [exact (@mean_run a n Ha)|].
  split; [exact (@shift_run a n Ha)|].
  split; [exact (@expm_run a n Ha Hn)|].
  split; [exact Hsum|].
  unfold true_divide, binary. rewrite Hsum, bind_ok_after, bind_coerce.
  rewrite ufunc_same by reflexivity. rewrite after_ret.
  unfold ew, scalar, py_int, py_float, size.
  cbn [shape dtype prod fold_right tab seq map flat data nth].
  now rewrite promote_float64_r, Cdiv_0_l.
Qed.

Lemma shifted_trace_zero_witness :
  sum (diag (shifted ex_b 2)) = ([call_diag; call_sum], Ok (scalar float64 C0)).
Proof.
  destruct (@shifted_trace_zero ex_b 2 eq_refl (le_S 1 1 (le_n 1)))
    as (_ & _ & _ & H & _).
  exact H.
Defined.

(** ** Adding a multiple of the identity to the input *)

Lemma Csum_add_const (f : nat -> C) c l :
  Csum (map (fun i => Cadd (f i) c) l)
  = (Re (Csum (map f l)) + INR (length l) * Re c,
     Im (Csum (map f l)) + INR (length l) * Im c)%R.
Proof.
  unfold Csum. induction l as [|x l IH].
  - cbn [map fold_right length INR]. unfold C0, RtoC, Re, Im. cbn [fst snd].
    f_equal; ring.
  - cbn [map fold_right length]. rewrite IH, S_INR.
    unfold Cadd, Re, Im. cbn [fst snd]. f_equal; ring.
Qed.

Lemma plus_scalar_run a n z :
  shape a = [n; n] -> shape z = [] ->
  add a (multiply z (eye n)) = ([call_eye], Ok (plus_scalar a n z)).
Proof.
  intros Ha Hz. unfold add, multiply, binary, eye.
  rewrite calling_ok, !bind_coerce, bind_after, bind_ret.
  rewrite ufunc_scalar_l by exact Hz. rewrite bind_after, bind_ret.
  rewrite ufunc_same by shp. apply after_ret.
Qed.

Lemma dtype_plus_scalar a n z :
  promote (dtype a) (dtype z) = dtype a -> dtype (plus_scalar a n z) = dtype a.
Proof.
  intros H. unfold plus_scalar, identity.
  cbn [ew ewl dtype smat matrix]. now rewrite promote_float64_r.
Qed.

Lemma get2_plus_scalar a n z i j :
  shape a = [n; n] -> i < n -> j < n ->
  get2 (plus_scalar a n z) i j
  = Cadd (get2 a i j) (if i =? j then flat z 0 else C0).
Proof.
  intros Ha Hi Hj. unfold plus_scalar.
  rewrite (@get2_ew _ _ _ n n i j) by (try assumption; reflexivity).
  rewrite (@get2_ewl _ _ _ n n i j) by (try assumption; reflexivity).
  unfold identity. rewrite get2_smat by assumption.
  destruct (i =? j); now autorewrite with cplx.
Qed.

Lemma trace_mean_plus_scalar a n z :
  shape a = [n; n] -> 1 <= n ->
  flat (trace_mean (plus_scalar a n z) n) 0
  = Cadd (flat (trace_mean a n) 0) (flat z 0).
Proof.
  intros Ha Hn. rewrite !flat_trace_mean.
  erewrite tab_ext with (h := fun i => Cadd (get2 a i i) (flat z 0)).
  2:{ intros i Hi. rewrite get2_plus_scalar by assumption. now rewrite Nat.eqb_refl. }
  unfold tab. rewrite Csum_add_const, length_seq, INR_IZR_INZ.
  assert (H0 : IZR (Z.of_nat n) <> 0%R) by (apply not_0_IZR; lia).
  destruct (Csum (map (fun i => get2 a i i) (seq 0 n))) as [x y].
  destruct (flat z 0) as [c1 c2].
  unfold Cdiv, Cadd, RtoC, Re, Im. cbn [fst snd]. f_equal; field; assumption.
Qed.

Lemma ew_ext f x y x' y' :
  promote (dtype x) (dtype y) = promote (dtype x') (dtype y') ->
  shape x = shape x' ->
  (forall p, p < size x -> f (flat x p) (flat y p) = f (flat x' p) (flat y' p)) ->
  ew f x y = ew f x' y'.
Proof.
  intros Hd Hs Hp. unfold ew, size. rewrite Hd, <- Hs. f_equal.
  now apply tab_ext.
Qed.

Lemma dtype_trace_mean a n : dtype (trace_mean a n) = dtype a.
Proof.
  unfold trace_mean. cbn [ew dtype scalar py_int py_float].
  apply promote_float64_r.
Qed.

Lemma shifted_plus_scalar a n z :
  shape a = [n; n] -> 1 <= n -> promote (dtype a) (dtype z) = dtype a ->
  shifted (plus_scalar a n z) n = shifted a n.
Proof.
  intros Ha Hn Hd. unfold shifted. apply ew_ext.
  - cbn [ewr dtype]. now rewrite !dtype_trace_mean, (@dtype_plus_scalar a n z Hd).
  - reflexivity.
  - intros p Hp. change (size (plus_scalar a n z)) with (size a) in Hp.
    rewrite (size_matrix _ Ha) in Hp.
    assert (Hn0 : n <> 0) by lia.
    assert (Hi : p / n < n) by (apply Nat.Div0.div_lt_upper_bound; lia).
    assert (Hj : p mod n < n) by now apply Nat.mod_upper_bound.
    assert (Hpq : p = p / n * n + p mod n)
      by (pose proof (Nat.div_mod_eq p n); lia).
    assert (Hget : forall X, shape X = [n; n] -> flat X p = get2 X (p / n) (p mod n)).
    { intros X HX. unfold get2. rewrite (ncols_matrix _ HX). now rewrite <- Hpq. }
    rewrite (Hget (plus_scalar a n z) Ha), (Hget a Ha).
    rewrite !Hget by reflexivity.
    rewrite get2_plus_scalar by assumption.
    rewrite !(@get2_ewr _ _ _ n n) by (try assumption; reflexivity).
    rewrite trace_mean_plus_scalar by assumption.
    unfold identity. rewrite get2_smat by assumption.
    destruct (p / n =? p mod n);
      destruct (get2 a (p / n) (p mod n)) as [x y];
      destruct (flat (trace_mean a n) 0) as [m1 m2]; destruct (flat z 0) as [c1 c2];
      unfold Csub, Cadd, Cmul, C1, C0, RtoC, Re, Im; cbn [fst snd]; f_equal; ring.
Qed.

Lemma Cexp_add z w : Cexp (Cadd z w) = Cmul (Cexp z) (Cexp w).
Proof.
  destruct z as [x y], w as [u v]. unfold Cexp, Cadd, Cmul, Re, Im. cbn [fst snd].
  rewrite exp_plus, cos_plus, sin_plus. f_equal; ring.
Qed.

Lemma Cexp_real x : Cexp (RtoC x) = RtoC (exp x).
Proof.
  unfold Cexp, RtoC, Re, Im. cbn [fst snd]. rewrite cos_0, sin_0. f_equal; ring.
Qed.

Lemma Cmul_assoc x y z : Cmul (Cmul x y) z = Cmul x (Cmul y z).
Proof. unfold Cmul, Re, Im. cbn [fst snd]. f_equal; ring. Qed.

Lemma exp_factor_plus_scalar a n z :
  shape a = [n; n] -> 1 <= n -> promote (dtype a) (dtype z) = dtype a ->
  flat (exp_factor (trace_mean (plus_scalar a n z) n)) 0
  = Cmul (flat (exp_factor (trace_mean a n)) 0)
         (if is_complex (dtype a) then Cexp (flat z 0)
          else RtoC (exp (Re (flat z 0)))).
Proof.
  intros Ha Hn Hd. unfold exp_factor, iscomplexobj.
  rewrite !dtype_trace_mean, (@dtype_plus_scalar a n z Hd).
  destruct (dtype a); cbn [is_complex py_float py_complex scalar flat data nth];
    rewrite trace_mean_plus_scalar by assumption.
  - destruct (flat (trace_mean a n) 0) as [m1 m2]. destruct (flat z 0) as [c1 c2].
    unfold Cadd, Cmul, RtoC, Re, Im. cbn [fst snd]. rewrite exp_plus.
    f_equal; ring.
  - apply Cexp_add.
Qed.

(** The shift by a Python number [z] that leaves the dtype of [a] as it is. *)
Lemma expm_shift a n z f :
  shape a = [n; n] -> 1 <= n -> shape z = [] ->
  promote (dtype a) (dtype z) = dtype a ->
  (if is_complex (dtype a) then Cexp (flat z 0) else RtoC (exp (Re (flat z 0)))) = f ->
  let a' := plus_scalar a n z in
  (forall t y, expm a = (t, Ok y) ->
     (exp_fits (trace_mean a' n) ->
      exists y', expm a' = (t, Ok y') /\ shape y' = shape y /\
        forall i j, i < n -> j < n -> get2 y' i j = Cmul (get2 y i j) f) /\
     (~ exp_fits (trace_mean a' n) -> expm a' = (t, Raise overflow_error))) /\
  (forall t, expm a = (t, Raise singular_error) ->
     expm a' = (t, Raise singular_error)).
Proof.
  intros Ha Hn Hz Hd Hf a'.
  assert (Ha' : shape a' = [n; n]) by exact Ha.
  pose proof (@expm_run a n Ha Hn) as R. cbn zeta in R.
  pose proof (@expm_run a' n Ha' Hn) as R'. cbn zeta in R'.
  unfold scaled, squared_back in R, R'.
  assert (Es : shifted a' n = shifted a n)
    by exact (@shifted_plus_scalar a n z Ha Hn Hd).
  rewrite Es in R'.
  set (A := scaled_from (shifted a n)) in *.
  assert (HA : shape A = [n; n]) by exact Ha.
  destruct (@pade13_shapes_from A n HA) as [HU _].
  destruct (@solve_outcome (ew Cadd (neg (pade_u (identity n) A)) (pade_v (identity n) A))
              (ew Cadd (pade_u (identity n) A) (pade_v (identity n) A)) n HU HU)
    as [(r13 & Hr & (_ & Hsh & _))|Hr]; rewrite Hr in R, R'.
  - assert (Hs : shape r13 = [n; n]) by (rewrite Hsh; exact HU).
    rewrite bind_after, bind_ret in R, R'.
    destruct (@iter_mm_shape (Z.to_nat (scale_exponent (one_norm (shifted a n))))
                r13 n Hs) as [Hy _].
    split.
    + intros t y Hx.
      destruct (exp_fits_dec (trace_mean a n)) as [Hm|Hm].
      2:{ rewrite (@squared_back_overflow _ _ r13 n Hs Hm) in R.
          rewrite R in Hx. discriminate Hx. }
      rewrite (@squared_back_exp _ _ r13 n Hs Hm) in R.
      rewrite R in Hx. injection Hx as <- <-.
      split.
      * intros Hm'. rewrite (@squared_back_exp _ _ r13 n Hs Hm') in R'.
        eexists. split; [exact R'|]. split; [reflexivity|].
        intros i j Hi Hj.
        rewrite !(@get2_ewr _ _ _ n n i j) by assumption.
        pose proof (@exp_factor_plus_scalar a n z Ha Hn Hd) as Ef. fold a' in Ef.
        rewrite Ef, Hf. symmetry. apply Cmul_assoc.
      * intros Hm'. rewrite (@squared_back_overflow _ _ r13 n Hs Hm') in R'.
        exact R'.
    + intros t He. exfalso.
      destruct (@squared_back_run (trace_mean a n) (shifted a n) r13 n Hs)
        as [(x & Hx & _)|Hx]; rewrite Hx in R; rewrite R in He; discriminate He.
  - rewrite bind_after, after_after in R, R'. split.
    + intros t y Hx. rewrite R in Hx. discriminate Hx.
    + intros t He. rewrite R in He. rewrite R'. exact He.
Qed.

(** X13: adding x I to a square input, for a real number x, or c I to a
    complex square input, for a complex number c, moves mu by that number
    and leaves the shifted matrix as it is: the same system is solved and
    the same squarings are made.  So when [expm] returns on
    [a], it returns on the new input the same matrix multiplied by exp(x),
    or exp(c), entry by entry (in exact arithmetic), unless the exponential
    of the new mu overflows at line 124; and when the solve fails on [a] it
    fails on the new input in the same way. *)
Theorem expm_plus_scalar (a : ndarray) (n : nat) (x : R) (c : C) :
  shape a = [n; n] -> 1 <= n ->
  let shifts (z : ndarray) (f : C) :=
    let a' := plus_scalar a n z in
    add a (multiply z (eye n)) = ([call_eye], Ok a') /\
    flat (trace_mean a' n) 0 = Cadd (flat (trace_mean a n) 0) (flat z 0) /\
    (forall t y, expm a = (t, Ok y) ->
       (exp_fits (trace_mean a' n) ->
        exists y', expm a' = (t, Ok y') /\ shape y' = shape y /\
          forall i j, i < n -> j < n -> get2 y' i j = Cmul (get2 y i j) f) /\
       (~ exp_fits (trace_mean a' n) -> expm a' = (t, Raise overflow_error))) /\
    (forall t, expm a = (t, Raise singular_error) ->
       expm a' = (t, Raise singular_error)) in
  shifts (py_float x) (RtoC (exp x)) /\
  (dtype a = complex128 -> shifts (py_complex c) (Cexp c)).
Proof.
  intros Ha Hn shifts.
  assert (H : forall z f, shape z = [] -> promote (dtype a) (dtype z) = dtype a ->
            (if is_complex (dtype a) then Cexp (flat z 0)
             else RtoC (exp (Re (flat z 0)))) = f -> shifts z f).
  { intros z f Hz Hd Hf. unfold shifts. cbn zeta.
    split; [exact (@plus_scalar_run a n z Ha Hz)|].
    split; [exact (@trace_mean_plus_scalar a n z Ha Hn)|].
    exact (@expm_shift a n z f Ha Hn Hz Hd Hf). }
  split.
  - apply H; [reflexivity|apply promote_float64_r|].
    change (flat (py_float x) 0) with (RtoC x).
    destruct (dtype a); cbn [is_complex]; [reflexivity|apply Cexp_real].
  - intros Da. apply H; [reflexivity|now rewrite Da|].
    now rewrite Da.
Qed.

Lemma expm_plus_scalar_witness :
  exists y',
    expm (plus_scalar (smat float64 1 C0) 1 (py_float 0))
    = (expm_calls ++ [call_solve; call_matmul; call_exp], Ok y').
Proof.
  destruct (proj1 (@expm_plus_scalar (smat float64 1 C0) 1 0%R C0 eq_refl (le_n 1)))
    as (_ & Hmu & H & _).
  assert (Hf : exp_fits (trace_mean (plus_scalar (smat float64 1 C0) 1 (py_float 0)) 1)).
  { unfold exp_fits. change (iscomplexobj _) with false. cbv iota.
    rewrite Hmu, trace_mean_zero.
    cbn [scalar py_float flat data nth Cadd C0 RtoC Re fst].
    rewrite Rplus_0_l, exp_0. apply in_range_1. }
  destruct (proj1 (H _ _ (@expm_zero_run float64 1 (le_n 1))) Hf) as (y' & Hy & _).
  exists y'. exact Hy.
Defined.

(** ** [cosm] and [sinm] of the negated matrix *)

Lemma flat_neg a p : flat (neg a) p = Copp (flat a p).
Proof.
  unfold flat, neg. cbn [data].
  transitivity (nth p (map Copp (data a)) (Copp C0)); [now rewrite Copp_0|].
  apply map_nth.
Qed.

Lemma times_neg w a :
  ewl Cmul (py_complex w) (neg a) = ewl Cmul (py_complex (Copp w)) a.
Proof.
  unfold ewl. cbn [neg dtype shape py_complex scalar]. f_equal.
  change (size (neg a)) with (size a). apply tab_ext. intros p _.
  rewrite flat_neg.
  change (flat (py_complex w) 0) with w.
  change (flat (py_complex (Copp w)) 0) with (Copp w).
  destruct w as [w1 w2]. destruct (flat a p) as [x y].
  unfold Cmul, Copp, Re, Im. cbn [fst snd]. f_equal; ring.
Qed.

Lemma Copp_involutive z : Copp (Copp z) = z.
Proof. destruct z. unfold Copp, Re, Im. cbn [fst snd]. f_equal; ring. Qed.

(** X14: for a complex square matrix on which both exponentials return,
    [cosm] is even and [sinm] is odd: cosm(-a) = cosm(a) and
    sinm(-a) = -sinm(a) entry by entry; the two exponentials are the same
    ones, computed in the other order. *)
Theorem cosm_even_sinm_odd (a : ndarray) (n : nat) (t1 t2 : list call)
    (e1 e2 : ndarray) :
  dtype a = complex128 -> shape a = [n; n] ->
  expm (ewl Cmul (py_complex Ci) a) = (t1, Ok e1) ->
  expm (ewl Cmul (py_complex (Copp Ci)) a) = (t2, Ok e2) ->
  exists c s s',
    cosm a = (t1 ++ t2, Ok c) /\ cosm (neg a) = (t2 ++ t1, Ok c) /\
    sinm a = (t1 ++ t2, Ok s) /\ sinm (neg a) = (t2 ++ t1, Ok s') /\
    shape s' = shape s /\
    forall i j, i < n -> j < n -> get2 s' i j = Copp (get2 s i j).
Proof.
  intros Da Ha H1 H2.
  assert (Hia : shape (ewl Cmul (py_complex Ci) a) = [n; n]) by exact Ha.
  assert (Hmia : shape (ewl Cmul (py_complex (Copp Ci)) a) = [n; n]) by exact Ha.
  destruct (@expm_result _ n t1 e1 Hia H1) as [S1 D1].
  destruct (@expm_result _ n t2 e2 Hmia H2) as [S2 D2].
  assert (Hcx : iscomplexobj a = true) by (unfold iscomplexobj; now rewrite Da).
  assert (Hcn : iscomplexobj (neg a) = true) by exact Hcx.
  exists (ewl Cmul (py_float 0.5) (ew Cadd e1 e2)),
         (ewl Cmul (py_float (-0.5)) (ew Csub e1 e2)),
         (ewl Cmul (py_float (-0.5)) (ew Csub e2 e1)).
  assert (Hrun : forall (f : C -> C -> C) h x ta tb ea eb,
            shape ea = [n; n] -> shape eb = [n; n] ->
            expm (ewl Cmul (py_complex Ci) x) = (ta, Ok ea) ->
            expm (ewl Cmul (py_complex (Copp Ci)) x) = (tb, Ok eb) ->
            multiply (py_float h)
              (binary f (bind (multiply (py_complex Ci) x) expm)
                        (bind (multiply (py_complex (Copp Ci)) x) expm))
            = (ta ++ tb, Ok (ewl Cmul (py_float h) (ew f ea eb)))).
  { intros f h x ta tb ea eb Sa Sb Ea Eb. unfold multiply, binary.
    rewrite !bind_coerce. rewrite !ufunc_scalar_l by reflexivity.
    rewrite !bind_ret, Ea, bind_ok_after, Eb, bind_after, bind_ok_after.
    rewrite ufunc_same by congruence. rewrite bind_after, !bind_ret.
    rewrite ufunc_scalar_l by reflexivity. now rewrite !after_after, after_ret. }
  assert (H1n : expm (ewl Cmul (py_complex Ci) (neg a)) = (t2, Ok e2))
    by now rewrite times_neg.
  assert (H2n : expm (ewl Cmul (py_complex (Copp Ci)) (neg a)) = (t1, Ok e1))
    by now rewrite times_neg, Copp_involutive.
  split; [unfold cosm; rewrite Hcx; now apply Hrun|].
  split.
  { unfold cosm. rewrite Hcn. unfold add.
    rewrite (Hrun Cadd _ (neg a) t2 t1 e2 e1 S2 S1 H1n H2n). do 3 f_equal.
    unfold ew. rewrite S1, S2, (promote_comm (dtype e2)). f_equal.
    rewrite (size_matrix _ S1), (size_matrix _ S2). apply tab_ext. intros p _.
    unfold Cadd. f_equal; ring. }
  split; [unfold sinm; rewrite Hcx; now apply Hrun|].
  split; [unfold sinm; rewrite Hcn; now apply Hrun|].
  split; [cbn [ewl ew shape]; congruence|].
  intros i j Hi Hj.
  rewrite !(@get2_ewl _ _ _ n n i j) by (try assumption; cbn [ew shape]; assumption).
  rewrite !(@get2_ew _ _ _ n n i j) by assumption.
  destruct (get2 e1 i j) as [x1 y1]. destruct (get2 e2 i j) as [x2 y2].
  unfold flat, py_float, scalar, Cmul, Csub, Copp, RtoC, Re, Im. cbn [data nth fst snd].
  f_equal; ring.
Qed.

Lemma cosm_even_sinm_odd_witness :
  exists c s s',
    cosm (smat complex128 1 C0)
    = ((expm_calls ++ [call_solve; call_matmul; call_exp])
       ++ (expm_calls ++ [call_solve; call_matmul; call_exp]), Ok c) /\
    cosm (neg (smat complex128 1 C0))
    = ((expm_calls ++ [call_solve; call_matmul; call_exp])
       ++ (expm_calls ++ [call_solve; call_matmul; call_exp]), Ok c) /\
    sinm (smat complex128 1 C0)
    = ((expm_calls ++ [call_solve; call_matmul; call_exp])
       ++ (expm_calls ++ [call_solve; call_matmul; call_exp]), Ok s) /\
    sinm (neg (smat complex128 1 C0))
    = ((expm_calls ++ [call_solve; call_matmul; call_exp])
       ++ (expm_calls ++ [call_solve; call_matmul; call_exp]), Ok s').
Proof.
  assert (H : forall z, expm (ewl Cmul (py_complex z) (smat complex128 1 C0))
              = (expm_calls ++ [call_solve; call_matmul; call_exp],
                 Ok (smat complex128 1 C1))).
  { intros z. rewrite ewl_smat by apply Cmul_0_r. rewrite Cmul_0_r.
    now apply expm_zero_run. }
  destruct (@cosm_even_sinm_odd (smat complex128 1 C0) 1 _ _ _ _ eq_refl eq_refl
              (H Ci) (H (Copp Ci))) as (c & s & s' & A1 & A2 & A3 & A4 & _).
  exists c, s, s'. repeat split; assumption.
Defined.
